(** * Excalibur: the logging facility and the entity/component core

    A shallow embedding of [src/ts/Log.ts].  The file holds two TypeScript
    sources: the [ex] module with the leveled [Logger], and the [Entity]
    class with its intercepted component map.

    Conventions of the embedding.
    - Objects live in a store and are named by their address (a [nat]);
      reference identity of two objects is equality of their addresses.
    - Calls into code that is not part of the source (appenders, the
      [onAdd]/[onRemove]/[onInitialize] hooks, subscribers of the change
      channel, [emit] of the base class) are recorded in a trace, together
      with the store the callee can observe at that moment.  They are
      observers: they do not write to the store.
    - The component map is a JavaScript object used as a string-keyed map.
      It is an association list in insertion order; [own_keys] gives the
      enumeration order of JavaScript (array indices first, ascending).
      The object has a prototype, [Object.prototype] until the source
      replaces it: reading a key that is not an own key goes up the
      prototype chain, and so does an assignment.
    - [Object.prototype] is the object that the language defines, with
      nothing added to it.  When the source writes [owner] on an object of
      the prototype chain, the write is recorded in the trace; what it
      changes for other objects is not followed.
    - A component object has the properties of the [Component] contract
      and no other, and they are ordinary data properties.  When a
      component has become the prototype of a map, an assignment under
      the name of one of them still defines an own key of the map.  A
      read under such a name gives what the field holds (a string, an
      entity, a function) and not a component of the map; what the source
      does with such a value is not followed: the computation stops with
      [OutsideSource].
    - [Entity._ID] and [id] are natural numbers. *)

From Stdlib Require Import DecimalString DecimalNat Sorted Floats.PrimFloat.
From stdpp Require Import base option list strings numbers.

(** ** The logging facility: [module ex] *)

Module ex.

(** [enum LogLevel]: the members are the numbers 0..4. *)
Inductive LogLevel := Debug | Info | Warn | Error | Fatal.

Definition level_num (l : LogLevel) : nat :=
  match l with
  | Debug => 0 | Info => 1 | Warn => 2 | Error => 3 | Fatal => 4
  end.

(** [LogLevel[level]]: the reverse mapping of the enum. *)
Definition level_name (l : LogLevel) : string :=
  match l with
  | Debug => "Debug" | Info => "Info" | Warn => "Warn"
  | Error => "Error" | Fatal => "Fatal"
  end.

(** The values passed as [...args]. *)
Inductive JsValue :=
| JsUndefined | JsNull
| JsBool (b : bool) | JsNum (z : Z) | JsStr (s : string).

(** An appender is an object implementing [IAppender]; the logger only
    ever calls its [log] method. *)
Inductive IAppender :=
| ConsoleAppender
| ScreenAppender (canvas : nat)
| CustomAppender (name : string).

(** One call [appender.log(level, args)]. *)
Record LogCall := mkLogCall {
  call_appender : IAppender;
  call_level : LogLevel;
  call_args : list JsValue
}.

Record Logger := mkLogger {
  appenders : list IAppender;
  defaultLevel : LogLevel
}.

(** [new Logger()]: throws when the singleton exists already. *)
Definition constructor (_instance : option Logger) : string + Logger :=
  match _instance with
  | Some _ => inl "Logger is a singleton"
  | None => inr {| appenders := []; defaultLevel := Info |}
  end.

Definition getInstance (_instance : option Logger) : string + Logger :=
  match _instance with
  | None => constructor _instance
  | Some lg => inr lg
  end.

(** [this.appenders.push(appender)] *)
Definition addAppender (lg : Logger) (appender : IAppender) : Logger :=
  {| appenders := appenders lg ++ [appender];
     defaultLevel := defaultLevel lg |}.

Definition set_defaultLevel (lg : Logger) (l : LogLevel) : Logger :=
  {| appenders := appenders lg; defaultLevel := l |}.

(** [_log(level, args)].  A [null] level is replaced by the default
    level; the threshold is tested inside the [forEach], once for each
    appender.  The result is the sequence of calls made. *)
Definition _log (lg : Logger) (level : option LogLevel)
    (args : list JsValue) : list LogCall :=
  let level := match level with
               | None => defaultLevel lg
               | Some l => l
               end in
  flat_map
    (fun appender =>
       if level_num (defaultLevel lg) <=? level_num level
       then [mkLogCall appender level args]
       else [])
    (appenders lg).

Definition debug lg args := _log lg (Some Debug) args.
Definition info lg args := _log lg (Some Info) args.
Definition warn lg args := _log lg (Some Warn) args.
Definition error lg args := _log lg (Some Error) args.
Definition fatal lg args := _log lg (Some Fatal) args.

(** [ConsoleAppender.log]: which console method is called, with which
    argument array. *)
Inductive ConsoleMethod := console_log | console_warn | console_error.

Definition ConsoleAppender_log (level : LogLevel) (args : list JsValue)
    : ConsoleMethod * list JsValue :=
  let consoleArgs := JsStr ("[" ++ level_name level ++ "] : ") :: args in
  if level_num level <? level_num Warn then (console_log, consoleArgs)
  else if level_num level <? level_num Error then (console_warn, consoleArgs)
  else (console_error, consoleArgs).

(** What the specification says of the dispatcher: the message goes to
    every registered appender, once, in registration order, exactly
    when its level is at or above the threshold. *)
Definition forwarded_spec (threshold : LogLevel) (registered : list IAppender)
    (L : LogLevel) (args : list JsValue) : list LogCall :=
  if bool_decide (level_num threshold ≤ level_num L)
  then (fun a => mkLogCall a L args) <$> registered
  else [].

End ex.

(** ** The entity/component core: [class Entity] *)

(** *** Objects and the store *)

Definition ComponentType := string.

(** Addresses of component objects and of entity objects. *)
Abbreviation cref := nat (only parsing).
Abbreviation eref := nat (only parsing).

(** The engine and the frame delta are passed through unexamined. *)
Definition Engine := nat.
Definition DeltaTime := nat.

(** The [Component] contract, as the entity uses it: the [type]
    discriminator, the [owner] back-reference ([None] is [null] or
    [undefined]) and whether the optional hooks are there. *)
Record Component := mkComponent {
  type : ComponentType;
  owner : option eref;
  onAdd : bool;
  onRemove : bool
}.

Definition with_owner (o : option eref) (c : Component) : Component :=
  {| type := type c; owner := o; onAdd := onAdd c; onRemove := onRemove c |}.

(** [type ComponentMap = { [type: string]: Component }] *)
Definition ComponentMap := list (ComponentType * cref).

Record Entity := mkEntity {
  id : nat;
  components : ComponentMap;
  _isInitialized : bool
}.

Definition with_components (m : ComponentMap) (e : Entity) : Entity :=
  {| id := id e; components := m; _isInitialized := _isInitialized e |}.

Definition with_isInitialized (b : bool) (e : Entity) : Entity :=
  {| id := id e; components := components e; _isInitialized := b |}.

(** [_ID] is the static counter [Entity._ID].  [prototypes] lists the
    component maps whose prototype is no longer [Object.prototype]: the
    entity of the map and the component that became its prototype, the
    latest change first. *)
Record Store := mkStore {
  _ID : nat;
  entities : list Entity;
  heap : list Component;
  prototypes : list (eref * cref)
}.

Definition with_ID (n : nat) (s : Store) : Store :=
  {| _ID := n; entities := entities s; heap := heap s;
     prototypes := prototypes s |}.

Definition with_entities (l : list Entity) (s : Store) : Store :=
  {| _ID := _ID s; entities := l; heap := heap s;
     prototypes := prototypes s |}.

Definition with_heap (l : list Component) (s : Store) : Store :=
  {| _ID := _ID s; entities := entities s; heap := l;
     prototypes := prototypes s |}.

Definition with_prototypes (l : list (eref * cref)) (s : Store) : Store :=
  {| _ID := _ID s; entities := entities s; heap := heap s;
     prototypes := l |}.

(** *** The prototype chain of a component map *)

(** The property names of [Object.prototype].  All of them are methods,
    but [__proto__], which is an accessor: its getter returns the
    prototype of the object it is read on and its setter replaces it. *)
Definition Object_prototype_names : list string :=
  ["constructor"; "__defineGetter__"; "__defineSetter__"; "hasOwnProperty";
   "__lookupGetter__"; "__lookupSetter__"; "isPrototypeOf";
   "propertyIsEnumerable"; "toString"; "valueOf"; "__proto__";
   "toLocaleString"].

(** The property names of a component object: the [Component] contract. *)
Definition component_fields : list string :=
  ["type"; "owner"; "clone"; "onAdd"; "onRemove"].

(** An object that a map does not hold and finds on its prototype chain:
    [Object.prototype] itself, or one of its methods. *)
Inductive Inherited :=
| Object_prototype
| Object_prototype_method (name : string).

(** What [obj[k]] is when it is not [undefined]: a component, or an
    inherited object.  Both are objects, hence truthy. *)
Inductive Property :=
| IsComponent (c : cref)
| IsInherited (v : Inherited).

(** The prototype of the component map of the entity [e]: [None] is
    [Object.prototype]. *)
Fixpoint prototype_in (l : list (eref * cref)) (e : eref) : option cref :=
  match l with
  | [] => None
  | (e', c) :: l' => if Nat.eqb e e' then Some c else prototype_in l' e
  end.

Definition map_prototype (s : Store) (e : eref) : option cref :=
  prototype_in (prototypes s) e.

Definition is_name (names : list string) (k : string) : bool :=
  existsb (String.eqb k) names.

(** *** Messages and the trace *)

(** The two messages of the change channel, each carrying
    [{component, entity}].  [RemovedComponent_of] is a [RemovedComponent]
    message as well: the one whose [component] is not a component but an
    inherited object, which the [deleteProperty] trap publishes for a
    name that the map inherits. *)
Inductive Message :=
| AddedComponent (component : cref) (entity : eref)
| RemovedComponent (component : cref) (entity : eref)
| RemovedComponent_of (component : Inherited) (entity : eref).

Definition isAddedComponent (x : Message) : bool :=
  match x with AddedComponent _ _ => true | _ => false end.

Definition isRemovedComponent (x : Message) : bool :=
  match x with AddedComponent _ _ => false | _ => true end.

(** Payloads of the events emitted through the base class. *)
Inductive GameEvent :=
| InitializeEvent (engine : Engine) (target : eref)
| PreUpdateEvent (engine : Engine) (delta : DeltaTime) (target : eref)
| PostUpdateEvent (engine : Engine) (delta : DeltaTime) (target : eref).

(** A call that leaves the source.  [seen] is the store at the moment of
    the call: what a subscriber or a hook reads if it looks.  [SetOwner]
    is not a call but a write that leaves the store: [target.owner = null]
    on an inherited object. *)
Inductive Event :=
| Notify (channel : eref) (m : Message) (seen : Store)
| OnAddCall (c : cref) (e : eref) (seen : Store)
| OnRemoveCall (c : cref) (e : eref) (seen : Store)
| OnInitializeCall (e : eref) (engine : Engine)
| OnPreUpdateCall (e : eref) (engine : Engine) (delta : DeltaTime)
| OnPostUpdateCall (e : eref) (engine : Engine) (delta : DeltaTime)
| Emit (e : eref) (eventName : string) (payload : GameEvent)
| SetOwner (target : Inherited).

Record World := mkWorld {
  store : Store;
  trace : list Event
}.

(** *** A state and exception monad *)

(** [TypeError] is the exception of JavaScript.  The other two end a
    computation that the model cannot follow: an address that names no
    object, and a step that works on a field of a component used as a
    prototype. *)
Inductive Exn :=
| TypeError (msg : string)
| DanglingReference
| OutsideSource.

Inductive Outcome (A : Type) :=
| Return (a : A)
| Throw (x : Exn).
Arguments Return {A} a.
Arguments Throw {A} x.

(** The world survives an exception: what was written before the throw
    stays written. *)
Definition M (A : Type) : Type := World -> Outcome A * World.

Definition ret {A} (a : A) : M A := fun w => (Return a, w).

Definition throw {A} (x : Exn) : M A := fun w => (Throw x, w).

Definition bind {A B} (m : M A) (k : A -> M B) : M B :=
  fun w =>
    match m w with
    | (Return a, w') => k a w'
    | (Throw x, w') => (Throw x, w')
    end.

Notation "x <- m ;; k" := (bind m (fun x => k))
  (at level 100, m at next level, right associativity).
Notation "m ;; k" := (bind m (fun _ => k))
  (at level 100, right associativity).

Definition readEntity (e : eref) : M Entity :=
  fun w =>
    match entities (store w) !! e with
    | Some v => (Return v, w)
    | None => (Throw DanglingReference, w)
    end.

(** An assignment to a field of the entity object [e]. *)
Definition modifyEntity (e : eref) (f : Entity -> Entity) : M unit :=
  fun w =>
    match entities (store w) !! e with
    | Some v =>
        (Return tt,
         {| store := with_entities (<[e := f v]> (entities (store w))) (store w);
            trace := trace w |})
    | None => (Throw DanglingReference, w)
    end.

Definition readComponent (c : cref) : M Component :=
  fun w =>
    match heap (store w) !! c with
    | Some v => (Return v, w)
    | None => (Throw DanglingReference, w)
    end.

(** An assignment to a field of the component object [c]. *)
Definition modifyComponent (c : cref) (f : Component -> Component) : M unit :=
  fun w =>
    match heap (store w) !! c with
    | Some v =>
        (Return tt,
         {| store := with_heap (<[c := f v]> (heap (store w))) (store w);
            trace := trace w |})
    | None => (Throw DanglingReference, w)
    end.

(** A component object made by user code ([new SomeComponent()]). *)
Definition allocComponent (v : Component) : M cref :=
  fun w =>
    (Return (length (heap (store w))),
     {| store := with_heap (heap (store w) ++ [v]) (store w);
        trace := trace w |}).

(** A call out of the source, recorded with the store it can see. *)
Definition call (ev : Store -> Event) : M unit :=
  fun w =>
    (Return tt, {| store := store w; trace := trace w ++ [ev (store w)] |}).

(** [Object.setPrototypeOf(this.components, c)] *)
Definition setPrototypeOf (e : eref) (c : cref) : M unit :=
  fun w =>
    (Return tt,
     {| store := with_prototypes ((e, c) :: prototypes (store w)) (store w);
        trace := trace w |}).

(** *** The component map as a JavaScript object *)

(** [obj[k]] for an own key [k]: the own properties of the object. *)
Fixpoint cm_get (k : ComponentType) (m : ComponentMap) : option cref :=
  match m with
  | [] => None
  | (k', v) :: m' => if String.eqb k k' then Some v else cm_get k m'
  end.

(** [obj[k] = v]: an existing key keeps its place, a new key goes last. *)
Fixpoint cm_set (k : ComponentType) (v : cref) (m : ComponentMap)
    : ComponentMap :=
  match m with
  | [] => [(k, v)]
  | (k', v') :: m' =>
      if String.eqb k k' then (k, v) :: m' else (k', v') :: cm_set k v m'
  end.

(** [delete obj[k]] *)
Fixpoint cm_delete (k : ComponentType) (m : ComponentMap) : ComponentMap :=
  match m with
  | [] => []
  | (k', v') :: m' =>
      if String.eqb k k' then cm_delete k m' else (k', v') :: cm_delete k m'
  end.

Definition string_of_nat (n : nat) : string :=
  NilEmpty.string_of_uint (Nat.to_uint n).

(** The key begins with one of the digits ["0"] to ["9"], as every
    decimal numeral does. *)
Definition starts_with_digit (k : string) : bool :=
  match k with
  | String a _ => (48 <=? Ascii.nat_of_ascii a) && (Ascii.nat_of_ascii a <=? 57)
  | EmptyString => false
  end.

(** A key is an array index when it is the canonical decimal form of an
    integer below 2^32 - 1. *)
Definition array_index (s : string) : option N :=
  match NilEmpty.uint_of_string s with
  | Some u =>
      let n := N.of_uint u in
      if String.eqb (NilEmpty.string_of_uint (N.to_uint n)) s
         && (n <? 4294967295)%N
      then Some n else None
  | None => None
  end.

Fixpoint insert_index (n : N) (k : string) (l : list (N * string))
    : list (N * string) :=
  match l with
  | [] => [(n, k)]
  | (n', k') :: l' =>
      if (n <? n')%N then (n, k) :: l else (n', k') :: insert_index n k l'
  end.

Fixpoint index_keys (ks : list string) : list (N * string) :=
  match ks with
  | [] => []
  | k :: ks' =>
      match array_index k with
      | Some n => insert_index n k (index_keys ks')
      | None => index_keys ks'
      end
  end.

Fixpoint named_keys (ks : list string) : list string :=
  match ks with
  | [] => []
  | k :: ks' =>
      match array_index k with
      | Some _ => named_keys ks'
      | None => k :: named_keys ks'
      end
  end.

(** The own enumerable keys in the order of [Object.keys] and [for...in]:
    array indices ascending, then the other keys in insertion order. *)
Definition own_keys (m : ComponentMap) : list string :=
  (snd <$> index_keys (fst <$> m)) ++ named_keys (fst <$> m).

(** [for (const k in array)]: the indices of the array, as strings. *)
Definition array_keys {A} (a : list A) : list string :=
  string_of_nat <$> seq 0 (length a).

(** [obj[k]], through the prototype chain.  An own key is found on the
    object.  Any other key is looked up on the prototype: [__proto__] is
    the accessor of [Object.prototype] and gives the prototype of the
    map; the name of a field of a component that became the prototype
    gives what that field holds, which is not followed; a method of
    [Object.prototype] is found there; nothing else is found. *)
Definition resolve (m : ComponentMap) (proto : option cref) (k : string)
    : Outcome (option Property) :=
  match cm_get k m with
  | Some c => Return (Some (IsComponent c))
  | None =>
      if String.eqb k "__proto__" then
        Return (Some (match proto with
                      | Some p => IsComponent p
                      | None => IsInherited Object_prototype
                      end))
      else if match proto with
              | Some _ => is_name component_fields k
              | None => false
              end
      then Throw OutsideSource
      else if is_name Object_prototype_names k
      then Return (Some (IsInherited (Object_prototype_method k)))
      else Return None
  end.

(** The key [k] is a name that the map of [e] inherits, whatever its own
    keys are. *)
Definition inherits (s : Store) (e : eref) (k : string) : bool :=
  is_name Object_prototype_names k
  || match map_prototype s e with
     | Some _ => is_name component_fields k
     | None => false
     end.

(** The body of a [for...in] loop, run for each key in turn. *)
Fixpoint forIn (keys : list string) (body : string -> M unit) : M unit :=
  match keys with
  | [] => ret tt
  | k :: keys' => body k ;; forIn keys' body
  end.

(** *** The observable channel and the component contract *)

(** Modelled from the spec: [Observable.notifyAll] of
    [../Util/Observable] is not part of the source.  Publishing invokes
    the subscribers of the channel synchronously, before it returns; the
    message is recorded with the store they see. *)
Definition notifyAll (channel : eref) (m : Message) : M unit :=
  call (Notify channel m).

(** Modelled from the spec: [Component.clone] of [./Component] is not
    part of the source.  It returns a new object, independent of the
    original, of the same type and with the same hooks; it is attached to
    no entity yet. *)
Definition Component_clone (c : cref) : M cref :=
  v <- readComponent c ;;
  allocComponent (with_owner None v).

(** Modelled from the spec: [Class.emit] of [../Class] is not part of the
    source.  It emits the named event with its payload. *)
Definition emit (this : eref) (eventName : string) (payload : GameEvent)
    : M unit :=
  call (fun _ => Emit this eventName payload).

(** *** [Entity] *)

(** [new Entity()]: [id = Entity._ID++], an empty component map behind
    the proxy, a new channel, [_isInitialized = false]. *)
Definition new_Entity : M eref :=
  fun w =>
    let s := store w in
    (Return (length (entities s)),
     {| store := with_ID (S (_ID s))
                   (with_entities
                      (entities s ++ [mkEntity (_ID s) [] false]) s);
        trace := trace w |}).

(** [get types()] *)
Definition types (this : eref) : M (list ComponentType) :=
  e <- readEntity this ;;
  ret (own_keys (components e)).

(** [this.components[k]]: the proxy has no [get] trap, the read goes to
    the target object and up its prototype chain. *)
Definition getProperty (this : eref) (k : string) : M (option Property) :=
  e <- readEntity this ;;
  fun w => (resolve (components e) (map_prototype (store w) this) k, w).

(** The [defineProperty] trap of [_handleChanges]: publish, then write
    to the target object. *)
Definition defineProperty (this : eref) (prop : string) (value : cref)
    : M bool :=
  notifyAll this (AddedComponent value this) ;;
  modifyEntity this
    (fun e => with_components (cm_set prop value (components e)) e) ;;
  ret true.

(** [this.components[prop] = value]: the proxy has no [set] trap.  For
    an own key, and for a key that is found nowhere or on a data
    property of the prototype chain, the assignment defines the property
    on the proxy, which runs the [defineProperty] trap.  For [__proto__]
    it finds the accessor of [Object.prototype] and runs its setter: the
    component becomes the prototype of the map, and the trap is not
    run. *)
Definition setProperty (this : eref) (prop : string) (value : cref)
    : M unit :=
  e <- readEntity this ;;
  match cm_get prop (components e) with
  | Some _ => defineProperty this prop value ;; ret tt
  | None =>
      if String.eqb prop "__proto__" then setPrototypeOf this value
      else defineProperty this prop value ;; ret tt
  end.

(** The [deleteProperty] trap of [_handleChanges].  [prop in obj] holds
    for an inherited name as well, and [obj[prop]] is then the inherited
    object; [delete obj[prop]] removes an own property only. *)
Definition deleteProperty (this : eref) (prop : string) : M bool :=
  p <- getProperty this prop ;;
  match p with
  | Some x =>
      notifyAll this
        (match x with
         | IsComponent c => RemovedComponent c this
         | IsInherited i => RemovedComponent_of i this
         end) ;;
      modifyEntity this
        (fun e => with_components (cm_delete prop (components e)) e) ;;
      ret true
  | None => ret false
  end.

(** The argument of [addComponent]: [Component | Entity], told apart by
    [instanceof Entity]. *)
Inductive ComponentOrEntity :=
| AComponent (c : cref)
| AnEntity (e : eref).

(** The normal component case of [addComponent]. *)
Definition addComponent_normal (this : eref) (component : cref) : M unit :=
  modifyComponent component (with_owner (Some this)) ;;
  c <- readComponent component ;;
  setProperty this (type c) component ;;
  if onAdd c then call (OnAddCall component this) else ret tt.

(** The body of the loop of the prefab case:
    [this.addComponent(component.components[c].clone())].  A clone is a
    component, so the recursive call takes the normal case.  A key that
    is no longer there when its turn comes is skipped, as [for...in]
    does. *)
Definition prefab_body (this template : eref) (c : string) : M unit :=
  t <- readEntity template ;;
  match cm_get c (components t) with
  | Some v =>
      cl <- Component_clone v ;;
      addComponent_normal this cl
  | None => ret tt
  end.

(** After the own keys, [for...in] goes on with the enumerable
    properties of the prototype.  [Object.prototype] has none.  A
    component that became the prototype has its fields: the loop visits
    them, reads what they hold and calls [clone] on it, which is not
    followed. *)
Definition inherited_keys (template : eref) : M unit :=
  fun w =>
    match map_prototype (store w) template with
    | Some _ => (Throw OutsideSource, w)
    | None => (Return tt, w)
    end.

(** [addComponent(component: Component | Entity)].  In the prefab case
    the loop runs over the keys of the template's map. *)
Definition addComponent (this : eref) (component : ComponentOrEntity)
    : M unit :=
  match component with
  | AnEntity template =>
      t <- readEntity template ;;
      forIn (own_keys (components t)) (prefab_body this template) ;;
      inherited_keys template
  | AComponent c => addComponent_normal this c
  end.

(** The argument of [removeComponent]: [string | Component]. *)
Inductive TypeOrComponent :=
| AType (t : ComponentType)
| TheComponent (c : cref).

(** Both branches of [removeComponent] run this text, with
    [componentOrType] or [componentOrType.type] for [key].  The guard
    [if (this.components[key])] passes for everything that the read
    finds, an inherited object included; such an object gets its [owner]
    written and has no [onRemove]. *)
Definition removeComponent_at (this : eref) (key : ComponentType) : M unit :=
  p <- getProperty this key ;;
  match p with
  | Some (IsComponent c) =>
      modifyComponent c (with_owner None) ;;
      v <- readComponent c ;;
      (if onRemove v then call (OnRemoveCall c this) else ret tt) ;;
      deleteProperty this key ;;
      ret tt
  | Some (IsInherited i) =>
      call (fun _ => SetOwner i) ;;
      deleteProperty this key ;;
      ret tt
  | None => ret tt
  end.

(** [removeComponent(componentOrType: string | Component)] *)
Definition removeComponent (this : eref) (componentOrType : TypeOrComponent)
    : M unit :=
  match componentOrType with
  | AType t => removeComponent_at this t
  | TheComponent c =>
      v <- readComponent c ;;
      removeComponent_at this (type v)
  end.

(** [has(type)]: [!!this.components[type]] *)
Definition has (this : eref) (t : ComponentType) : M bool :=
  p <- getProperty this t ;;
  ret (match p with Some _ => true | None => false end).

(** The body of the loop of [clone]:
    [newEntity.addComponent(this.components[c].clone())].  Reading
    [clone] of [undefined] throws, and so does calling the [clone] of an
    inherited object, which has none. *)
Definition clone_body (this newEntity : eref) (c : string) : M unit :=
  p <- getProperty this c ;;
  match p with
  | Some (IsComponent v) =>
      cl <- Component_clone v ;;
      addComponent newEntity (AComponent cl)
  | Some (IsInherited _) => throw (TypeError "clone is not a function")
  | None => throw (TypeError "Cannot read property 'clone' of undefined")
  end.

(** [clone()].  The loop is [for (const c in this.types)]: [this.types]
    is an array, so [c] runs over its indices "0", "1", ..., and
    [this.components[c]] reads the map at an index. *)
Definition clone (this : eref) : M eref :=
  newEntity <- new_Entity ;;
  ts <- types this ;;
  forIn (array_keys ts) (clone_body this newEntity) ;;
  ret newEntity.

(** [get isInitialized()] *)
Definition isInitialized (this : eref) : M bool :=
  e <- readEntity this ;;
  ret (_isInitialized e).

(** [_initialize(engine)] *)
Definition _initialize (this : eref) (engine : Engine) : M unit :=
  b <- isInitialized this ;;
  if negb b then
    call (fun _ => OnInitializeCall this engine) ;;
    emit this "initialize" (InitializeEvent engine this) ;;
    modifyEntity this (with_isInitialized true)
  else ret tt.

(** [_preupdate(engine, delta)] *)
Definition _preupdate (this : eref) (engine : Engine) (delta : DeltaTime)
    : M unit :=
  emit this "preupdate" (PreUpdateEvent engine delta this) ;;
  call (fun _ => OnPreUpdateCall this engine delta).

(** [_postupdate(engine, delta)] *)
Definition _postupdate (this : eref) (engine : Engine) (delta : DeltaTime)
    : M unit :=
  emit this "postupdate" (PostUpdateEvent engine delta this) ;;
  call (fun _ => OnPostUpdateCall this engine delta).

(** *** Reading a trace *)

(** The messages published on the change channel of the entity [ch],
    oldest first. *)
Fixpoint published (ch : eref) (tr : list Event) : list Message :=
  match tr with
  | [] => []
  | Notify ch' m _ :: tr' =>
      if Nat.eqb ch ch' then m :: published ch tr' else published ch tr'
  | _ :: tr' => published ch tr'
  end.

(** How often the [onInitialize] hook of the entity [e] was invoked. *)
Fixpoint onInitialize_calls (e : eref) (tr : list Event) : nat :=
  match tr with
  | [] => 0
  | OnInitializeCall e' _ :: tr' =>
      (if Nat.eqb e e' then 1 else 0) + onInitialize_calls e tr'
  | _ :: tr' => onInitialize_calls e tr'
  end.

(** How often the entity [e] emitted the event [name]. *)
Fixpoint emitted (e : eref) (name : string) (tr : list Event) : nat :=
  match tr with
  | [] => 0
  | Emit e' name' _ :: tr' =>
      (if Nat.eqb e e' && String.eqb name name' then 1 else 0)
      + emitted e name tr'
  | _ :: tr' => emitted e name tr'
  end.

(** *** Sample worlds *)

Definition empty_world : World := mkWorld (mkStore 0 [] [] []) [].

(** The world a program leaves behind. *)
Definition exec {A} (m : M A) (w : World) : World := (m w).2.

(** One entity (address 0) and two unattached components of type ["A"]
    (addresses 0 and 1), the first with both hooks. *)
Definition two_A_world : World :=
  exec (e <- new_Entity ;;
        allocComponent (mkComponent "A" None true true) ;;
        allocComponent (mkComponent "A" None false false) ;;
        ret e) empty_world.

(** The entity 0 holds the component 0, of type ["A"] and with both
    hooks; the component 1, of the same type, was never added. *)
Definition holds_A_world : World :=
  exec (e <- new_Entity ;;
        a <- allocComponent (mkComponent "A" None true true) ;;
        allocComponent (mkComponent "A" None false false) ;;
        addComponent e (AComponent a)) empty_world.

(** One entity (address 0) and two unattached components of type
    ["__proto__"] (addresses 0 and 1), the first with an [onAdd] hook. *)
Definition two_proto_world : World :=
  exec (e <- new_Entity ;;
        allocComponent (mkComponent "__proto__" None true false) ;;
        allocComponent (mkComponent "__proto__" None false false) ;;
        ret e) empty_world.

(** One entity (address 0) and one unattached component of type
    ["toString"] (address 0). *)
Definition toString_world : World :=
  exec (e <- new_Entity ;;
        allocComponent (mkComponent "toString" None false false) ;;
        ret e) empty_world.

(** The key that the argument of [removeComponent] stands for: the
    string itself, or the [type] of the component. *)
Definition target_key (w : World) (arg : TypeOrComponent)
    : option ComponentType :=
  match arg with
  | AType t => Some t
  | TheComponent c => type <$> heap (store w) !! c
  end.

(** *** Programs over the interface *)

(** One call of user code on the interface of the source. *)
Inductive Op :=
| NewEntity
| NewComponent (v : Component)
| AddComponent (this : eref) (component : ComponentOrEntity)
| RemoveComponent (this : eref) (componentOrType : TypeOrComponent)
| Has (this : eref) (t : ComponentType)
| Types (this : eref)
| Clone (this : eref)
| Initialize (this : eref) (engine : Engine)
| PreUpdate (this : eref) (engine : Engine) (delta : DeltaTime)
| PostUpdate (this : eref) (engine : Engine) (delta : DeltaTime).

Definition perform (o : Op) : M unit :=
  match o with
  | NewEntity => new_Entity ;; ret tt
  | NewComponent v => allocComponent v ;; ret tt
  | AddComponent this component => addComponent this component
  | RemoveComponent this componentOrType =>
      removeComponent this componentOrType
  | Has this t => has this t ;; ret tt
  | Types this => types this ;; ret tt
  | Clone this => clone this ;; ret tt
  | Initialize this engine => _initialize this engine
  | PreUpdate this engine delta => _preupdate this engine delta
  | PostUpdate this engine delta => _postupdate this engine delta
  end.

(** The caller goes on after a call, also when the call threw. *)
Definition step (w : World) (o : Op) : World := exec (perform o) w.

Definition run (ops : list Op) (w : World) : World := foldl step w ops.

(** Entities are constructed one after the other; before each
    construction the program does whatever [interludes] says.  The result
    is the [id] of each constructed entity, in order. *)
Fixpoint construct_each (interludes : list (list Op)) : M (list nat) :=
  match interludes with
  | [] => ret []
  | ops :: rest =>
      (fun w => (Return tt, run ops w)) ;;
      e <- new_Entity ;;
      v <- readEntity e ;;
      ids <- construct_each rest ;;
      ret (id v :: ids)
  end.

(** *** Invariants of a world *)

(** A property of worlds that a computation keeps, whether it returns or
    throws. *)
Definition preserves {A} (P : World -> Prop) (m : M A) : Prop :=
  forall w, P w -> P (m w).2.

(** An object has each key once. *)
Definition maps_wf (w : World) : Prop :=
  forall e E, entities (store w) !! e = Some E -> NoDup (components E).*1.

Definition init_count (s : Store) (e : eref) : nat :=
  match entities s !! e with
  | Some E => if _isInitialized E then 1 else 0
  | None => 0
  end.

(** The trace and the [_isInitialized] flags agree: an entity whose flag
    is set has had its [onInitialize] call and its ["initialize"] event,
    once each, and an entity whose flag is not set has had none. *)
Definition lifecycle_ok (w : World) : Prop :=
  forall e,
    onInitialize_calls e (trace w) = init_count (store w) e
    /\ emitted e "initialize" (trace w) = init_count (store w) e.

(** An event that is neither an [onInitialize] call nor an ["initialize"]
    event. *)
Definition quiet (ev : Event) : Prop :=
  forall e, onInitialize_calls e [ev] = 0 /\ emitted e "initialize" [ev] = 0.

(** Every key of the map is the [type] of the component stored under it,
    and that component is in the heap. *)
Definition typed_map (h : list Component) (m : ComponentMap) : bool :=
  forallb
    (fun kc : ComponentType * cref =>
       match h !! kc.2 with
       | Some C => String.eqb (type C) kc.1
       | None => false
       end)
    m.



(** The entity 0 holds the component 0 of type ["A"] and the component 1
    of type ["B"]. *)
Definition A_B_world : World :=
  exec (e <- new_Entity ;;
        a <- allocComponent (mkComponent "A" None false false) ;;
        b <- allocComponent (mkComponent "B" None false false) ;;
        addComponent e (AComponent a) ;;
        addComponent e (AComponent b)) empty_world.

(** Entities carry the ids 0, 1, 2, ... in the order of their
    construction, and the counter is the number of entities made. *)
Definition ids_in_order (w : World) : Prop :=
  id <$> entities (store w) = seq 0 (length (entities (store w)))
  /\ _ID (store w) = length (entities (store w)).

(** The entity 0 holds the components 0 and 1 under the keys ["1"] and
    ["0"], added in this order. *)
Definition index_keys_world : World :=
  exec (e <- new_Entity ;;
        a <- allocComponent (mkComponent "1" None false false) ;;
        b <- allocComponent (mkComponent "0" None false false) ;;
        addComponent e (AComponent a) ;;
        addComponent e (AComponent b)) empty_world.

(** ** Further parts of the logging facility *)

(** *** The singleton *)

(** [new Logger()] with the static field [Logger._instance] passed
    through: the constructor registers the new logger, or throws and
    leaves the field as it is. *)
Definition Logger_new (_instance : option ex.Logger)
    : (string + ex.Logger) * option ex.Logger :=
  match ex.constructor _instance with
  | inl msg => (inl msg, _instance)
  | inr lg => (inr lg, Some lg)
  end.

(** [Logger.getInstance()] *)
Definition Logger_getInstance (_instance : option ex.Logger)
    : (string + ex.Logger) * option ex.Logger :=
  match _instance with
  | None => Logger_new None
  | Some lg => (inr lg, _instance)
  end.

(** *** What reaches the console *)

(** The calls on [console] that a sequence of [appender.log] calls
    leads to: each call on a [ConsoleAppender] makes one. *)
Definition console_calls (calls : list ex.LogCall)
    : list (ex.ConsoleMethod * list ex.JsValue) :=
  flat_map
    (fun c =>
       match ex.call_appender c with
       | ex.ConsoleAppender =>
           [ex.ConsoleAppender_log (ex.call_level c) (ex.call_args c)]
       | _ => []
       end)
    calls.

(** *** [ScreenAppender] *)

(** A call on the 2d context of the canvas.  The fill style is the
    string ['rgba(r,g,b,' + opacity.toFixed(2) + ')']; the call carries
    the three numbers and the opacity, a binary64 number, before it is
    printed. *)
Inductive CanvasCall :=
| clearRect (x y w h : nat)
| set_fillStyle (r g b : nat) (opacity : float)
| fillText (text : string) (x y : nat).

Record ScreenAppenderState := mkScreen {
  canvas_width : nat;
  canvas_height : nat;
  _messages : list string
}.

(** [new ScreenAppender(width, height)]: [width || window.innerWidth],
    so a missing width and a width of 0 both give the window's. *)
Definition ScreenAppender_new (width height : option nat)
    (innerWidth innerHeight : nat) : ScreenAppenderState :=
  {| canvas_width := match width with
                     | Some (S n) => S n
                     | _ => innerWidth
                     end;
     canvas_height := match height with
                      | Some (S n) => S n
                      | _ => innerHeight
                      end;
     _messages := [] |}.

(** [opacity = opacity > 0 ? opacity - .05 : 0] *)
Definition next_opacity (opacity : float) : float :=
  if PrimFloat.ltb 0 opacity then PrimFloat.sub opacity 0x1.999999999999ap-5
  else 0%float.

(** The drawing loop of [ScreenAppender.log], from the line [i] on. *)
Fixpoint draw_messages (messages : list string) (pos : nat) (opacity : float)
    : list CanvasCall :=
  match messages with
  | [] => []
  | m :: rest =>
      set_fillStyle 255 255 255 opacity
      :: fillText m 200 pos
      :: draw_messages rest (pos + 10) (next_opacity opacity)
  end.

Section ScreenAppender.
(** How a number among the arguments is printed ([Number.prototype
    .toString]) is left open. *)
Context (number_toString : Z -> string).

(** What [Array.prototype.join] makes of an element. *)
Definition join_element (v : ex.JsValue) : string :=
  match v with
  | ex.JsUndefined | ex.JsNull => ""
  | ex.JsBool true => "true"
  | ex.JsBool false => "false"
  | ex.JsNum z => number_toString z
  | ex.JsStr s => s
  end.

(** [args.join(",")] *)
Definition join_args (args : list ex.JsValue) : string :=
  String.concat "," (join_element <$> args).

(** The line that [log] puts in front of [_messages]. *)
Definition screen_line (level : ex.LogLevel) (args : list ex.JsValue)
    : string :=
  ("[" ++ ex.level_name level ++ "] : ") ++ join_args args.

(** [ScreenAppender.log(level, args)]: the new state and the calls on
    the canvas context. *)
Definition ScreenAppender_log (s : ScreenAppenderState) (level : ex.LogLevel)
    (args : list ex.JsValue) : ScreenAppenderState * list CanvasCall :=
  let messages := screen_line level args :: _messages s in
  ({| canvas_width := canvas_width s;
      canvas_height := canvas_height s;
      _messages := messages |},
   clearRect 0 0 (canvas_width s) (canvas_height s)
   :: draw_messages messages 10 1%float).

(** Several messages logged one after the other; the canvas calls of
    the last one are what the screen shows. *)
Definition ScreenAppender_log_all (s : ScreenAppenderState)
    (msgs : list (ex.LogLevel * list ex.JsValue)) : ScreenAppenderState :=
  foldl (fun st m => (ScreenAppender_log st m.1 m.2).1) s msgs.

End ScreenAppender.

(** ** Further notions for the entity core *)

(** In every map of the world, each key is the type of its component. *)
Definition typed_ok (w : World) : Prop :=
  forall e E,
    entities (store w) !! e = Some E ->
    typed_map (heap (store w)) (components E) = true.

(** The per-frame calls of the scene on one entity: [_preupdate], then
    [_postupdate], frame after frame. *)
Fixpoint run_frames (this : eref) (frames : list (Engine * DeltaTime))
    : M unit :=
  match frames with
  | [] => ret tt
  | (engine, delta) :: rest =>
      _preupdate this engine delta ;;
      _postupdate this engine delta ;;
      run_frames this rest
  end.

(** The entity 0 holds the component 0 (type ["A"], both hooks); the
    entity 1 is empty. *)
Definition two_entities_world : World := exec new_Entity holds_A_world.

(** The channels tell the truth about the maps: every component that an
    entity holds has had its Added message on the channel of that
    entity. *)
Definition announced_ok (w : World) : Prop :=
  forall e E k c,
    entities (store w) !! e = Some E ->
    cm_get k (components E) = Some c ->
    AddedComponent c e ∈ published e (trace w).

(** The component [c] is in the heap and its type is ["__proto__"]. *)
Definition proto_component (s : Store) (c : cref) : Prop :=
  exists C, heap s !! c = Some C /\ type C = "__proto__".

(** A component that became the prototype of a map is of type
    ["__proto__"]. *)
Definition prototypes_ok (w : World) : Prop :=
  forall e p, (e, p) ∈ prototypes (store w) -> proto_component (store w) p.

(** Every Removed message for a component names the entity of the
    channel, and comes after an Added message for the component unless
    the component is of type ["__proto__"]. *)
Definition removals_ok (w : World) : Prop :=
  forall e pre c e' post,
    published e (trace w) = pre ++ RemovedComponent c e' :: post ->
    e' = e /\ (AddedComponent c e ∈ pre \/ proto_component (store w) c).

Definition channel_ok (w : World) : Prop :=
  announced_ok w /\ prototypes_ok w /\ removals_ok w.

(** The components that were there are there, with their types. *)
Definition heap_kept (w w' : World) : Prop :=
  forall c C,
    heap (store w) !! c = Some C ->
    exists C', heap (store w') !! c = Some C' /\ type C' = type C.
(** ** Properties of the logger *)

Example console_appender_warn :
  ex.ConsoleAppender_log ex.Warn [ex.JsStr "low fuel"]
  = (ex.console_warn, [ex.JsStr "[Warn] : "; ex.JsStr "low fuel"]).
Proof. reflexivity. Qed.

Example info_is_dropped_at_warn :
  ex.info (ex.mkLogger [ex.ConsoleAppender] ex.Warn) [ex.JsStr "hello"] = [].
Proof. reflexivity. Qed.

Lemma appenders_foldl_addAppender (lg : ex.Logger) (added : list ex.IAppender) :
  ex.appenders (foldl ex.addAppender lg added) = ex.appenders lg ++ added.
Proof.
  revert lg. induction added as [|a added IH]; intros lg; simpl.
  - by rewrite app_nil_r.
  - rewrite IH. simpl. by rewrite <- app_assoc.
Qed.

Lemma defaultLevel_foldl_addAppender (lg : ex.Logger) (added : list ex.IAppender) :
  ex.defaultLevel (foldl ex.addAppender lg added) = ex.defaultLevel lg.
Proof.
  revert lg. induction added as [|a added IH]; intros lg; simpl; [done|].
  by rewrite IH.
Qed.

Lemma log_calls_above (lg : ex.Logger) (L : ex.LogLevel) (args : list ex.JsValue) :
  ex.level_num (ex.defaultLevel lg) ≤ ex.level_num L →
  ex._log lg (Some L) args = (fun a => ex.mkLogCall a L args) <$> ex.appenders lg.
Proof.
  intros Hle. unfold ex._log.
  apply Nat.leb_le in Hle. rewrite Hle.
  induction (ex.appenders lg) as [|a l IH]; simpl; [done|]. by rewrite IH.
Qed.

Lemma log_calls_below (lg : ex.Logger) (L : ex.LogLevel) (args : list ex.JsValue) :
  ex.level_num L < ex.level_num (ex.defaultLevel lg) →
  ex._log lg (Some L) args = [].
Proof.
  intros Hlt. unfold ex._log.
  apply Nat.leb_gt in Hlt. rewrite Hlt.
  induction (ex.appenders lg) as [|a l IH]; simpl; done.
Qed.

(** C9. Take the new logger, set its threshold to [d] and add the
    appenders [added] in this order.  A call at level [L] is forwarded as
    the specification says: one [log] call for each appender, in the order
    of [addAppender], carrying the level and the arguments, when
    [L >= d]; no call at all when [L < d]. *)
Theorem log_forwards_iff_at_or_above_threshold
    (d L : ex.LogLevel) (added : list ex.IAppender) (args : list ex.JsValue) :
  let lg := foldl ex.addAppender
              (ex.set_defaultLevel (ex.mkLogger [] ex.Info) d) added in
  ex._log lg (Some L) args = ex.forwarded_spec d added L args
  ∧ length (ex._log lg (Some L) args)
    = (if bool_decide (ex.level_num d ≤ ex.level_num L) then length added else 0).
Proof.
  intros lg.
  assert (Happ : ex.appenders lg = added).
  { unfold lg. by rewrite appenders_foldl_addAppender. }
  assert (Hlev : ex.defaultLevel lg = d).
  { unfold lg. by rewrite defaultLevel_foldl_addAppender. }
  unfold ex.forwarded_spec.
  case_bool_decide as Hd.
  - rewrite log_calls_above; [|by rewrite Hlev].
    rewrite Happ. split; [done|]. by rewrite length_fmap.
  - assert (ex._log lg (Some L) args = []) as ->.
    { apply log_calls_below. rewrite Hlev. lia. }
    done.
Qed.

(** ** Properties of the component map *)

Lemma cm_get_set_eq (k : ComponentType) (v : cref) (m : ComponentMap) :
  cm_get k (cm_set k v m) = Some v.
Proof.
  induction m as [|[k' v'] m IH]; simpl.
  - by rewrite String.eqb_refl.
  - destruct (String.eqb k k') eqn:Hk; simpl.
    + by rewrite String.eqb_refl.
    + by rewrite Hk.
Qed.

Lemma cm_get_set_ne (k k' : ComponentType) (v : cref) (m : ComponentMap) :
  k ≠ k' → cm_get k' (cm_set k v m) = cm_get k' m.
Proof.
  intros Hne. induction m as [|[k0 v0] m IH]; simpl.
  - destruct (String.eqb_spec k' k); [congruence | done].
  - destruct (String.eqb_spec k k0) as [->|Hk0]; simpl.
    + destruct (String.eqb_spec k' k0); [congruence | done].
    + by rewrite IH.
Qed.

Lemma cm_get_delete_eq (k : ComponentType) (m : ComponentMap) :
  cm_get k (cm_delete k m) = None.
Proof.
  induction m as [|[k' v'] m IH]; simpl; [done|].
  destruct (String.eqb k k') eqn:Hk; simpl; [done|]. by rewrite Hk.
Qed.

Lemma cm_get_delete_ne (k k' : ComponentType) (m : ComponentMap) :
  k ≠ k' → cm_get k' (cm_delete k m) = cm_get k' m.
Proof.
  intros Hne. induction m as [|[k0 v0] m IH]; simpl; [done|].
  destruct (String.eqb_spec k k0) as [->|Hk0]; simpl.
  - rewrite IH. destruct (String.eqb_spec k' k0); [congruence | done].
  - by rewrite IH.
Qed.

Lemma cm_get_Some_elem (k : ComponentType) (v : cref) (m : ComponentMap) :
  cm_get k m = Some v → (k, v) ∈ m.
Proof.
  induction m as [|[k' v'] m IH]; simpl; [done|].
  destruct (String.eqb_spec k k') as [->|Hk]; intros Hg.
  - injection Hg as ->. apply list_elem_of_here.
  - apply list_elem_of_further. by apply IH.
Qed.

Lemma cm_set_keys_elem (k k0 : ComponentType) (v : cref) (m : ComponentMap) :
  k0 ∈ (cm_set k v m).*1 → k0 = k ∨ k0 ∈ m.*1.
Proof.
  induction m as [|[k' v'] m IH]; simpl.
  - intros Hin. apply list_elem_of_singleton in Hin. by left.
  - destruct (String.eqb_spec k k') as [->|Hk]; simpl; intros Hin.
    + by right.
    + apply elem_of_cons in Hin as [->|Hin].
      * right. apply list_elem_of_here.
      * destruct (IH Hin) as [->|Hm]; [by left|].
        right. by apply list_elem_of_further.
Qed.

Lemma cm_set_NoDup (k : ComponentType) (v : cref) (m : ComponentMap) :
  NoDup m.*1 → NoDup (cm_set k v m).*1.
Proof.
  induction m as [|[k' v'] m IH]; simpl; intros Hnd.
  - apply NoDup_singleton.
  - apply list.NoDup_cons in Hnd as [Hnotin Hnd].
    destruct (String.eqb_spec k k') as [->|Hk]; simpl.
    + by apply list.NoDup_cons.
    + apply list.NoDup_cons. split; [|by apply IH].
      intros Hin. apply cm_set_keys_elem in Hin as [->|Hin]; done.
Qed.

(** With distinct keys, the entries under [k] after [obj[k] = v] are the
    single pair [(k, v)]. *)
Lemma cm_set_entry_unique (k : ComponentType) (v v' : cref) (m : ComponentMap) :
  NoDup m.*1 → (k, v') ∈ cm_set k v m → v' = v.
Proof.
  induction m as [|[k0 v0] m IH]; simpl; intros Hnd Hin.
  - apply list_elem_of_singleton in Hin. congruence.
  - apply list.NoDup_cons in Hnd as [Hnotin Hnd].
    destruct (String.eqb_spec k k0) as [->|Hk].
    + apply elem_of_cons in Hin as [Heq|Hin]; [congruence|].
      exfalso. apply Hnotin.
      apply (list_elem_of_fmap_2 fst) in Hin. done.
    + apply elem_of_cons in Hin as [Heq|Hin]; [congruence|].
      by apply IH.
Qed.

(** ** The operations in closed form *)

Lemma bind_Return {A B} (m : M A) (k : A -> M B) (w w' : World) (a : A) :
  m w = (Return a, w') → bind m k w = k a w'.
Proof. intros Hm. unfold bind. by rewrite Hm. Qed.

Lemma bind_Throw {A B} (m : M A) (k : A -> M B) (w w' : World) (x : Exn) :
  m w = (Throw x, w') → bind m k w = (Throw x, w').
Proof. intros Hm. unfold bind. by rewrite Hm. Qed.

Lemma lookup_insert_same {A} (l : list A) (i : nat) (x y : A) :
  l !! i = Some y → <[i := x]> l !! i = Some x.
Proof. intros Hl. apply list_lookup_insert_eq. by eapply lookup_lt_Some. Qed.

(** *** Reading the map *)

Lemma resolve_own (m : ComponentMap) (proto : option cref) (k : string)
    (c : cref) :
  cm_get k m = Some c → resolve m proto k = Return (Some (IsComponent c)).
Proof. intros Hget. unfold resolve. by rewrite Hget. Qed.

Lemma is_name_proto : is_name Object_prototype_names "__proto__" = true.
Proof. reflexivity. Qed.

Lemma inherits_proto (s : Store) (e : eref) (k : string) :
  inherits s e k = false → k ≠ "__proto__".
Proof.
  intros Hinh ->. unfold inherits in Hinh. by rewrite is_name_proto in Hinh.
Qed.

Lemma resolve_absent (s : Store) (e : eref) (m : ComponentMap) (k : string) :
  cm_get k m = None → inherits s e k = false →
  resolve m (map_prototype s e) k = Return None.
Proof.
  intros Hget Hinh. unfold resolve. rewrite Hget.
  pose proof (inherits_proto s e k Hinh) as Hne.
  apply orb_false_iff in Hinh as [Hnames Hfields].
  rewrite (proj2 (String.eqb_neq k "__proto__") Hne), Hnames.
  by destruct (map_prototype s e); [rewrite Hfields|].
Qed.

Lemma inherits_prototypes (s s' : Store) (e : eref) (k : string) :
  prototypes s' = prototypes s → inherits s' e k = inherits s e k.
Proof. intros Heq. unfold inherits, map_prototype. by rewrite Heq. Qed.


Lemma digit_key_ordinary (k : string) :
  starts_with_digit k = true →
  k ≠ "__proto__"
  ∧ is_name Object_prototype_names k = false
  ∧ is_name component_fields k = false.
Proof.
  destruct k as [|a k]; [done|].
  destruct a as [[] [] [] [] [] [] [] []]; try discriminate; intros _;
    (split; [discriminate | split; reflexivity]).
Qed.

Lemma digit_key_not_inherited (s : Store) (e : eref) (k : string) :
  starts_with_digit k = true → inherits s e k = false.
Proof.
  intros Hd. destruct (digit_key_ordinary k Hd) as (_ & Hn & Hf).
  unfold inherits. rewrite Hn, Hf. by destruct (map_prototype s e).
Qed.

Lemma getProperty_own (w : World) (this : eref) (k : string) (E : Entity)
    (c : cref) :
  entities (store w) !! this = Some E →
  cm_get k (components E) = Some c →
  getProperty this k w = (Return (Some (IsComponent c)), w).
Proof.
  intros He Hget. unfold getProperty, bind, readEntity. rewrite He.
  by rewrite (resolve_own _ _ _ _ Hget).
Qed.

Lemma getProperty_absent (w : World) (this : eref) (k : string) (E : Entity) :
  entities (store w) !! this = Some E →
  cm_get k (components E) = None →
  inherits (store w) this k = false →
  getProperty this k w = (Return None, w).
Proof.
  intros He Hget Hinh. unfold getProperty, bind, readEntity. rewrite He.
  by rewrite (resolve_absent _ _ _ _ Hget Hinh).
Qed.

(** A read changes nothing, whatever it finds. *)
Lemma getProperty_world (w : World) (this : eref) (k : string) :
  (getProperty this k w).2 = w.
Proof.
  unfold getProperty, bind, readEntity.
  by destruct (entities (store w) !! this).
Qed.

Lemma has_own (w : World) (this : eref) (t : ComponentType) (E : Entity)
    (c : cref) :
  entities (store w) !! this = Some E →
  cm_get t (components E) = Some c →
  has this t w = (Return true, w).
Proof.
  intros He Hget. unfold has.
  by rewrite (bind_Return _ _ _ _ _ (getProperty_own w this t E c He Hget)).
Qed.

Lemma has_absent (w : World) (this : eref) (t : ComponentType) (E : Entity) :
  entities (store w) !! this = Some E →
  cm_get t (components E) = None →
  inherits (store w) this t = false →
  has this t w = (Return false, w).
Proof.
  intros He Hget Hinh. unfold has.
  by rewrite (bind_Return _ _ _ _ _ (getProperty_absent w this t E He Hget Hinh)).
Qed.

(** *** The operations on one component *)

(** An assignment under an own key, or under any key but [__proto__],
    runs the trap. *)
Lemma setProperty_trap (w : World) (this : eref) (prop : string) (value : cref)
    (E : Entity) :
  entities (store w) !! this = Some E →
  is_Some (cm_get prop (components E)) ∨ prop ≠ "__proto__" →
  let s2 := with_entities
              (<[this := with_components (cm_set prop value (components E)) E]>
                 (entities (store w))) (store w) in
  setProperty this prop value w
  = (Return tt,
     {| store := s2;
        trace := trace w ++ [Notify this (AddedComponent value this) (store w)] |}).
Proof.
  intros He Hkey s2.
  assert (Hdef : (defineProperty this prop value ;; ret tt) w
                 = (Return tt,
                    {| store := s2;
                       trace := trace w
                                ++ [Notify this (AddedComponent value this)
                                      (store w)] |})).
  { unfold defineProperty, notifyAll, call, bind, modifyEntity, ret. simpl.
    by rewrite He. }
  unfold setProperty.
  rewrite (bind_Return _ _ w w E); [|unfold readEntity; by rewrite He].
  destruct (cm_get prop (components E)) as [c|]; [done|].
  destruct Hkey as [[c Hc]|Hne]; [done|].
  by rewrite (proj2 (String.eqb_neq prop "__proto__") Hne).
Qed.

(** An assignment under [__proto__], when that is not an own key, replaces
    the prototype of the map and publishes nothing. *)
Lemma setProperty_proto (w : World) (this : eref) (value : cref) (E : Entity) :
  entities (store w) !! this = Some E →
  cm_get "__proto__" (components E) = None →
  setProperty this "__proto__" value w
  = (Return tt,
     {| store := with_prototypes ((this, value) :: prototypes (store w))
                   (store w);
        trace := trace w |}).
Proof.
  intros He Hget. unfold setProperty.
  rewrite (bind_Return _ _ w w E); [|unfold readEntity; by rewrite He].
  by rewrite Hget.
Qed.

Lemma addComponent_normal_trap (w : World) (this : eref) (c : cref)
    (E : Entity) (C : Component) :
  entities (store w) !! this = Some E →
  heap (store w) !! c = Some C →
  is_Some (cm_get (type C) (components E)) ∨ type C ≠ "__proto__" →
  let s1 := with_heap (<[c := with_owner (Some this) C]> (heap (store w)))
              (store w) in
  let s2 := with_entities
              (<[this := with_components (cm_set (type C) c (components E)) E]>
                 (entities s1)) s1 in
  addComponent_normal this c w
  = (Return tt,
     {| store := s2;
        trace := (trace w ++ [Notify this (AddedComponent c this) s1])
                 ++ (if onAdd C then [OnAddCall c this s2] else []) |}).
Proof.
  intros He Hc Hkey s1 s2.
  unfold addComponent_normal.
  rewrite (bind_Return _ _ w (mkWorld s1 (trace w)) tt);
    [|unfold modifyComponent; by rewrite Hc].
  rewrite (bind_Return _ _ _ (mkWorld s1 (trace w)) (with_owner (Some this) C));
    [|unfold readComponent; simpl; by rewrite (lookup_insert_same _ _ _ _ Hc)].
  rewrite (bind_Return _ _ _ _ _
             (setProperty_trap (mkWorld s1 (trace w)) this (type C) c E He Hkey)).
  simpl. destruct (onAdd C); [done|].
  unfold ret. by rewrite app_nil_r.
Qed.

Lemma addComponent_normal_run (w : World) (this : eref) (c : cref)
    (E : Entity) (C : Component) :
  entities (store w) !! this = Some E →
  heap (store w) !! c = Some C →
  type C ≠ "__proto__" →
  let s1 := with_heap (<[c := with_owner (Some this) C]> (heap (store w)))
              (store w) in
  let s2 := with_entities
              (<[this := with_components (cm_set (type C) c (components E)) E]>
                 (entities s1)) s1 in
  addComponent_normal this c w
  = (Return tt,
     {| store := s2;
        trace := (trace w ++ [Notify this (AddedComponent c this) s1])
                 ++ (if onAdd C then [OnAddCall c this s2] else []) |}).
Proof.
  intros He Hc Hne. apply addComponent_normal_trap; [done|done|by right].
Qed.

(** A component of type [__proto__] on a map without such an own key: the
    owner is set, the component becomes the prototype of the map, nothing
    is published and no key is made; the hook runs. *)
Lemma addComponent_normal_proto (w : World) (this : eref) (c : cref)
    (E : Entity) (C : Component) :
  entities (store w) !! this = Some E →
  heap (store w) !! c = Some C →
  type C = "__proto__" →
  cm_get "__proto__" (components E) = None →
  let s1 := with_heap (<[c := with_owner (Some this) C]> (heap (store w)))
              (store w) in
  let s2 := with_prototypes ((this, c) :: prototypes s1) s1 in
  addComponent_normal this c w
  = (Return tt,
     {| store := s2;
        trace := trace w ++ (if onAdd C then [OnAddCall c this s2] else []) |}).
Proof.
  intros He Hc Hty Hget s1 s2.
  unfold addComponent_normal.
  rewrite (bind_Return _ _ w (mkWorld s1 (trace w)) tt);
    [|unfold modifyComponent; by rewrite Hc].
  rewrite (bind_Return _ _ _ (mkWorld s1 (trace w)) (with_owner (Some this) C));
    [|unfold readComponent; simpl; by rewrite (lookup_insert_same _ _ _ _ Hc)].
  simpl. rewrite Hty.
  rewrite (bind_Return _ _ _ _ _
             (setProperty_proto (mkWorld s1 (trace w)) this c E He Hget)).
  simpl. destruct (onAdd C); [done|].
  unfold ret. by rewrite app_nil_r.
Qed.

Lemma removeComponent_at_absent (w : World) (this : eref) (key : ComponentType)
    (E : Entity) :
  entities (store w) !! this = Some E →
  cm_get key (components E) = None →
  inherits (store w) this key = false →
  removeComponent_at this key w = (Return tt, w).
Proof.
  intros He Hk Hinh. unfold removeComponent_at.
  by rewrite (bind_Return _ _ _ _ _ (getProperty_absent w this key E He Hk Hinh)).
Qed.

(** The key resolves to a component: to the one stored under it, or,
    for [__proto__], to the one that is the prototype of the map. *)
Lemma removeComponent_at_component (w : World) (this : eref)
    (key : ComponentType) (E : Entity) (c : cref) (C : Component) :
  entities (store w) !! this = Some E →
  resolve (components E) (map_prototype (store w) this) key
  = Return (Some (IsComponent c)) →
  heap (store w) !! c = Some C →
  let s1 := with_heap (<[c := with_owner None C]> (heap (store w)))
              (store w) in
  let s2 := with_entities
              (<[this := with_components (cm_delete key (components E)) E]>
                 (entities s1)) s1 in
  removeComponent_at this key w
  = (Return tt,
     {| store := s2;
        trace := (trace w ++ (if onRemove C then [OnRemoveCall c this s1] else []))
                 ++ [Notify this (RemovedComponent c this) s1] |}).
Proof.
  intros He Hres Hc s1 s2.
  assert (Hget : ∀ w0, entities (store w0) !! this = Some E →
                       prototypes (store w0) = prototypes (store w) →
                       getProperty this key w0
                       = (Return (Some (IsComponent c)), w0)).
  { intros w0 He0 Hp0. unfold getProperty, bind, readEntity. rewrite He0.
    cbv beta iota zeta. unfold map_prototype in *. by rewrite Hp0, Hres. }
  unfold removeComponent_at.
  rewrite (bind_Return _ _ _ _ _ (Hget w He eq_refl)).
  rewrite (bind_Return _ _ w (mkWorld s1 (trace w)) tt);
    [|unfold modifyComponent; by rewrite Hc].
  rewrite (bind_Return _ _ _ (mkWorld s1 (trace w)) (with_owner None C));
    [|unfold readComponent; simpl; by rewrite (lookup_insert_same _ _ _ _ Hc)].
  set (w2 := mkWorld s1 (trace w ++ (if onRemove C
                                     then [OnRemoveCall c this s1] else []))).
  rewrite (bind_Return _ _ _ w2 tt);
    [|simpl; destruct (onRemove C); unfold call, ret, w2; simpl;
      by rewrite ?app_nil_r].
  assert (Hdel : deleteProperty this key w2
                 = (Return true,
                    {| store := s2;
                       trace := trace w2
                                ++ [Notify this (RemovedComponent c this) s1] |})).
  { unfold deleteProperty.
    rewrite (bind_Return _ _ _ _ _ (Hget w2 He eq_refl)).
    unfold notifyAll, call, bind, modifyEntity, ret. simpl. by rewrite He. }
  by rewrite (bind_Return _ _ _ _ _ Hdel).
Qed.

Lemma removeComponent_at_present (w : World) (this : eref)
    (key : ComponentType) (E : Entity) (c : cref) (C : Component) :
  entities (store w) !! this = Some E →
  cm_get key (components E) = Some c →
  heap (store w) !! c = Some C →
  let s1 := with_heap (<[c := with_owner None C]> (heap (store w)))
              (store w) in
  let s2 := with_entities
              (<[this := with_components (cm_delete key (components E)) E]>
                 (entities s1)) s1 in
  removeComponent_at this key w
  = (Return tt,
     {| store := s2;
        trace := (trace w ++ (if onRemove C then [OnRemoveCall c this s1] else []))
                 ++ [Notify this (RemovedComponent c this) s1] |}).
Proof.
  intros He Hk Hc. apply removeComponent_at_component; [done| |done].
  by apply resolve_own.
Qed.

(** An inherited name that is not an own key: the inherited object gets
    its [owner] written and a Removed message is published for it; the
    map is as it was. *)
Lemma removeComponent_at_inherited (w : World) (this : eref)
    (key : ComponentType) (E : Entity) (i : Inherited) :
  entities (store w) !! this = Some E →
  resolve (components E) (map_prototype (store w) this) key
  = Return (Some (IsInherited i)) →
  removeComponent_at this key w
  = (Return tt,
     {| store := with_entities
                   (<[this := with_components (cm_delete key (components E)) E]>
                      (entities (store w))) (store w);
        trace := trace w ++ [SetOwner i;
                             Notify this (RemovedComponent_of i this) (store w)] |}).
Proof.
  destruct w as [s tr]. cbn [store trace]. intros He Hres.
  assert (Hget : ∀ tr', getProperty this key (mkWorld s tr')
                        = (Return (Some (IsInherited i)), mkWorld s tr')).
  { intros tr'. unfold getProperty, bind, readEntity. cbn [store].
    rewrite He. cbv beta iota zeta. cbn [store]. by rewrite Hres. }
  unfold removeComponent_at.
  rewrite (bind_Return _ _ _ _ _ (Hget tr)).
  rewrite (bind_Return _ _ _ (mkWorld s (tr ++ [SetOwner i])) tt); [|done].
  assert (Hdel : deleteProperty this key (mkWorld s (tr ++ [SetOwner i]))
                 = (Return true,
                    {| store := with_entities
                         (<[this := with_components
                                      (cm_delete key (components E)) E]>
                            (entities s)) s;
                       trace := (tr ++ [SetOwner i])
                                ++ [Notify this (RemovedComponent_of i this) s] |})).
  { unfold deleteProperty.
    rewrite (bind_Return _ _ _ _ _ (Hget _)).
    unfold notifyAll, call, bind, modifyEntity, ret. simpl. by rewrite He. }
  rewrite (bind_Return _ _ _ _ _ Hdel). unfold ret.
  by rewrite <- app_assoc.
Qed.

(** ** Adding and removing components *)

Lemma published_app (ch : eref) (t1 t2 : list Event) :
  published ch (t1 ++ t2) = published ch t1 ++ published ch t2.
Proof.
  induction t1 as [|ev t1 IH]; simpl; [done|].
  destruct ev; try done.
  destruct (Nat.eqb ch channel); simpl; by rewrite IH.
Qed.

Lemma published_OnAdd_opt (ch : eref) (b : bool) (c : cref) (e : eref)
    (s : Store) :
  published ch (if b then [OnAddCall c e s] else []) = [].
Proof. by destruct b. Qed.

Lemma published_OnRemove_opt (ch : eref) (b : bool) (c : cref) (e : eref)
    (s : Store) :
  published ch (if b then [OnRemoveCall c e s] else []) = [].
Proof. by destruct b. Qed.

Lemma published_Notify_self (ch : eref) (m : Message) (s : Store) :
  published ch [Notify ch m s] = [m].
Proof. simpl. by rewrite Nat.eqb_refl. Qed.

(** C2, for a type other than ["__proto__"].  Two distinct components of
    one type are added in sequence: the map then holds the second under
    that type and no other entry for the type, and the channel of the
    entity received exactly Added for the first, then Added for the
    second; no Removed message. *)
Theorem add_same_type_twice_replaces (w : World) (e : eref) (c1 c2 : cref)
    (E : Entity) (C1 C2 : Component) :
  entities (store w) !! e = Some E →
  NoDup (components E).*1 →
  heap (store w) !! c1 = Some C1 →
  heap (store w) !! c2 = Some C2 →
  c1 ≠ c2 →
  type C1 = type C2 →
  type C1 ≠ "__proto__" →
  ∃ (w1 w2 : World) (E2 : Entity),
    addComponent e (AComponent c1) w = (Return tt, w1)
    ∧ addComponent e (AComponent c2) w1 = (Return tt, w2)
    ∧ entities (store w2) !! e = Some E2
    ∧ cm_get (type C2) (components E2) = Some c2
    ∧ (∀ c, (type C2, c) ∈ components E2 → c = c2)
    ∧ published e (trace w2)
      = published e (trace w)
        ++ [AddedComponent c1 e; AddedComponent c2 e].
Proof.
  intros He Hnd Hc1 Hc2 Hne Hty Hord.
  pose proof (addComponent_normal_run w e c1 E C1 He Hc1 Hord) as Hrun1.
  cbv zeta in Hrun1.
  eexists _, _, _. split; [exact Hrun1|].
  split.
  { simpl. apply addComponent_normal_run; simpl.
    - by eapply lookup_insert_same.
    - rewrite list_lookup_insert_ne; [exact Hc2 | done].
    - by rewrite <- Hty. }
  simpl. split; [by eapply lookup_insert_same, lookup_insert_same|].
  simpl. rewrite Hty. split; [apply cm_get_set_eq|].
  split.
  - intros c Hin. eapply cm_set_entry_unique; [|exact Hin].
    by apply cm_set_NoDup.
  - rewrite !published_app, !published_OnAdd_opt, !published_Notify_self.
    rewrite !app_nil_r. by rewrite <- app_assoc.
Qed.

Lemma add_same_type_twice_witness :
  ∃ (w1 w2 : World) (E2 : Entity),
    addComponent 0 (AComponent 0) two_A_world = (Return tt, w1)
    ∧ addComponent 0 (AComponent 1) w1 = (Return tt, w2)
    ∧ entities (store w2) !! 0 = Some E2
    ∧ cm_get "A" (components E2) = Some 1
    ∧ (∀ c, ("A", c) ∈ components E2 → c = 1)
    ∧ published 0 (trace w2)
      = published 0 (trace two_A_world)
        ++ [AddedComponent 0 0; AddedComponent 1 0].
Proof.
  apply (add_same_type_twice_replaces two_A_world 0 0 1
           (mkEntity 0 [] false)
           (mkComponent "A" None true true)
           (mkComponent "A" None false false)).
  - reflexivity.
  - simpl. constructor.
  - reflexivity.
  - reflexivity.
  - lia.
  - reflexivity.
  - simpl. discriminate.
Defined.

(** C2 as stated fails for the type ["__proto__"].  Two distinct
    components of that type are added to the entity 0 in sequence, and
    both calls return: the map holds neither of them, it has no key at
    all, and nothing was published on the channel.  The second component
    is the prototype of the map. *)
Lemma add_proto_type_twice_stores_nothing :
  ∃ (w1 w2 : World),
    type <$> heap (store two_proto_world) !! 0 = Some "__proto__"
    ∧ type <$> heap (store two_proto_world) !! 1 = Some "__proto__"
    ∧ addComponent 0 (AComponent 0) two_proto_world = (Return tt, w1)
    ∧ addComponent 0 (AComponent 1) w1 = (Return tt, w2)
    ∧ entities (store w2) !! 0 = Some (mkEntity 0 [] false)
    ∧ published 0 (trace w2) = []
    ∧ map_prototype (store w2) 0 = Some 1.
Proof.
  eexists _, _. split; [reflexivity|]. split; [reflexivity|].
  split; [vm_compute; reflexivity|].
  split; [vm_compute; reflexivity|].
  split; [reflexivity|]. split; reflexivity.
Qed.

(** C3, for a type that the map does not inherit.  A component is added
    and then removed by its type: [has] of the type is false afterwards,
    the channel received exactly one Added and then one Removed message
    for the component, and the owner of the component is none. *)
Theorem add_then_remove_by_type (w : World) (e : eref) (c : cref)
    (E : Entity) (C : Component) :
  entities (store w) !! e = Some E →
  heap (store w) !! c = Some C →
  inherits (store w) e (type C) = false →
  ∃ (w1 w2 : World) (C2 : Component),
    addComponent e (AComponent c) w = (Return tt, w1)
    ∧ removeComponent e (AType (type C)) w1 = (Return tt, w2)
    ∧ has e (type C) w2 = (Return false, w2)
    ∧ published e (trace w2)
      = published e (trace w)
        ++ [AddedComponent c e; RemovedComponent c e]
    ∧ heap (store w2) !! c = Some C2
    ∧ owner C2 = None.
Proof.
  intros He Hc Hinh.
  pose proof (addComponent_normal_run w e c E C He Hc
                (inherits_proto _ _ _ Hinh)) as Hrun1.
  cbv zeta in Hrun1.
  eexists _, _, _. split; [exact Hrun1|].
  split.
  { simpl. eapply removeComponent_at_present; simpl.
    - by eapply lookup_insert_same.
    - simpl. apply cm_get_set_eq.
    - by eapply lookup_insert_same. }
  simpl. split.
  { eapply has_absent; simpl.
    - by eapply lookup_insert_same, lookup_insert_same.
    - simpl. apply cm_get_delete_eq.
    - by rewrite <- Hinh. }
  split.
  { rewrite !published_app, published_OnAdd_opt, published_OnRemove_opt,
      !published_Notify_self.
    rewrite !app_nil_r. by rewrite <- app_assoc. }
  split; [by eapply lookup_insert_same; eapply lookup_insert_same | done].
Qed.

Lemma add_then_remove_by_type_witness :
  ∃ (w1 w2 : World) (C2 : Component),
    addComponent 0 (AComponent 0) two_A_world = (Return tt, w1)
    ∧ removeComponent 0 (AType "A") w1 = (Return tt, w2)
    ∧ has 0 "A" w2 = (Return false, w2)
    ∧ published 0 (trace w2)
      = published 0 (trace two_A_world)
        ++ [AddedComponent 0 0; RemovedComponent 0 0]
    ∧ heap (store w2) !! 0 = Some C2
    ∧ owner C2 = None.
Proof.
  apply (add_then_remove_by_type two_A_world 0 0
           (mkEntity 0 [] false) (mkComponent "A" None true true));
    reflexivity.
Defined.

(** C3 as stated fails for a type that is a property name of
    [Object.prototype].  A component of type ["toString"] is added to the
    entity 0 and removed by its type; both calls return, the key is gone
    from the map, and [has] of the type is true: it finds the method that
    the map inherits.  For a component of type ["__proto__"], both calls
    return as well, the channel has received the Removed message and no
    Added message, and [has] of the type is true. *)
Lemma has_is_true_after_removal :
  (∃ (w1 w2 : World),
     type <$> heap (store toString_world) !! 0 = Some "toString"
     ∧ addComponent 0 (AComponent 0) toString_world = (Return tt, w1)
     ∧ removeComponent 0 (AType "toString") w1 = (Return tt, w2)
     ∧ entities (store w2) !! 0 = Some (mkEntity 0 [] false)
     ∧ has 0 "toString" w2 = (Return true, w2))
  ∧ (∃ (w1 w2 : World),
       type <$> heap (store two_proto_world) !! 0 = Some "__proto__"
       ∧ addComponent 0 (AComponent 0) two_proto_world = (Return tt, w1)
       ∧ removeComponent 0 (AType "__proto__") w1 = (Return tt, w2)
       ∧ published 0 (trace w2) = [RemovedComponent 0 0]
       ∧ has 0 "__proto__" w2 = (Return true, w2)).
Proof.
  split.
  - eexists _, _. split; [reflexivity|].
    split; [vm_compute; reflexivity|].
    split; [vm_compute; reflexivity|].
    split; reflexivity.
  - eexists _, _. split; [reflexivity|].
    split; [vm_compute; reflexivity|].
    split; [vm_compute; reflexivity|].
    split; reflexivity.
Qed.

(** C5, for a type that the map does not inherit.  When the type that the
    argument stands for is not a key of the component map,
    [removeComponent] returns normally and leaves the world as it was:
    nothing is published, no hook runs, the map and the components are
    unchanged. *)
Theorem remove_absent_is_silent_noop (w : World) (e : eref) (E : Entity)
    (arg : TypeOrComponent) (key : ComponentType) :
  entities (store w) !! e = Some E →
  target_key w arg = Some key →
  cm_get key (components E) = None →
  inherits (store w) e key = false →
  removeComponent e arg w = (Return tt, w).
Proof.
  intros He Hkey Habs Hinh. destruct arg as [t|c]; simpl in Hkey.
  - injection Hkey as ->. simpl. by eapply removeComponent_at_absent.
  - destruct (heap (store w) !! c) as [C|] eqn:Hc; [|done].
    injection Hkey as <-.
    unfold removeComponent, bind, readComponent. rewrite Hc.
    by eapply removeComponent_at_absent.
Qed.

Lemma remove_absent_is_silent_noop_witness :
  removeComponent 0 (AType "B") holds_A_world = (Return tt, holds_A_world)
  ∧ removeComponent 0 (TheComponent 1) two_A_world = (Return tt, two_A_world).
Proof.
  split.
  - apply (remove_absent_is_silent_noop holds_A_world 0
             (mkEntity 0 [("A", 0)] false) (AType "B") "B"); reflexivity.
  - apply (remove_absent_is_silent_noop two_A_world 0
             (mkEntity 0 [] false) (TheComponent 1) "A"); reflexivity.
Defined.

(** C5 as stated fails for a type that is a property name of
    [Object.prototype].  The map of the entity 0 has the one key ["A"];
    [removeComponent("toString")] passes the guard on the inherited
    method, writes its [owner] and publishes a Removed message for it. *)
Lemma removeComponent_toString_publishes :
  ∃ (w' : World),
    entities (store holds_A_world) !! 0 = Some (mkEntity 0 [("A", 0)] false)
    ∧ removeComponent 0 (AType "toString") holds_A_world = (Return tt, w')
    ∧ store w' = store holds_A_world
    ∧ trace w'
      = trace holds_A_world
        ++ [SetOwner (Object_prototype_method "toString");
            Notify 0 (RemovedComponent_of (Object_prototype_method "toString") 0)
              (store holds_A_world)]
    ∧ published 0 (trace w')
      = published 0 (trace holds_A_world)
        ++ [RemovedComponent_of (Object_prototype_method "toString") 0].
Proof.
  eexists _. split; [reflexivity|].
  split; [vm_compute; reflexivity|].
  split; [reflexivity|]. split; reflexivity.
Qed.



(** C4 as the code has it, for a type other than ["__proto__"].
    [addComponent(c)] sets the owner, then publishes Added, then stores,
    then calls [onAdd] if the component has the hook.  The subscriber
    sees the owner already set and the component map exactly as it was
    before the call: it does not see [c] under its type, unless [c] was
    stored there before the call.  The hook sees the final store, where
    [c] is in the map. *)
Theorem addComponent_publishes_before_store (w : World) (e : eref) (c : cref)
    (E : Entity) (C : Component) :
  entities (store w) !! e = Some E →
  heap (store w) !! c = Some C →
  type C ≠ "__proto__" →
  ∃ (seen : Store) (w' : World) (E' : Entity),
    addComponent e (AComponent c) w = (Return tt, w')
    ∧ trace w'
      = (trace w ++ [Notify e (AddedComponent c e) seen])
        ++ (if onAdd C then [OnAddCall c e (store w')] else [])
    ∧ heap seen !! c = Some (with_owner (Some e) C)
    ∧ entities seen !! e = Some E
    ∧ (cm_get (type C) (components E) ≠ Some c →
       ∀ E1, entities seen !! e = Some E1 →
             cm_get (type C) (components E1) ≠ Some c)
    ∧ entities (store w') !! e = Some E'
    ∧ cm_get (type C) (components E') = Some c
    ∧ heap (store w') !! c = Some (with_owner (Some e) C).
Proof.
  intros He Hc Hord.
  pose proof (addComponent_normal_run w e c E C He Hc Hord) as Hrun.
  cbv zeta in Hrun.
  eexists _, _, _. split; [exact Hrun|].
  simpl. split; [done|].
  split; [by eapply lookup_insert_same|].
  split; [done|].
  split.
  { intros Hnot E1 HE1. simpl in HE1. rewrite He in HE1.
    by injection HE1 as <-. }
  split; [by eapply lookup_insert_same|].
  simpl. split; [apply cm_get_set_eq|].
  by eapply lookup_insert_same.
Qed.

Lemma addComponent_publishes_before_store_witness :
  ∃ (seen : Store) (w' : World) (E' : Entity),
    addComponent 0 (AComponent 0) two_A_world = (Return tt, w')
    ∧ trace w'
      = (trace two_A_world ++ [Notify 0 (AddedComponent 0 0) seen])
        ++ [OnAddCall 0 0 (store w')]
    ∧ heap seen !! 0 = Some (mkComponent "A" (Some 0) true true)
    ∧ entities seen !! 0 = Some (mkEntity 0 [] false)
    ∧ (cm_get "A" [] ≠ Some 0 →
       ∀ E1, entities seen !! 0 = Some E1 →
             cm_get "A" (components E1) ≠ Some 0)
    ∧ entities (store w') !! 0 = Some E'
    ∧ cm_get "A" (components E') = Some 0
    ∧ heap (store w') !! 0 = Some (mkComponent "A" (Some 0) true true).
Proof.
  apply (addComponent_publishes_before_store two_A_world 0 0
           (mkEntity 0 [] false) (mkComponent "A" None true true));
    [reflexivity | reflexivity | simpl; discriminate].
Defined.

(** C4 as stated fails in two cases.  When the component is already on
    the entity: the entity 0 holds the component 0 under ["A"]; on adding
    it once more, the subscriber that handles the Added message sees the
    map with the component 0 under ["A"].  When the type is
    ["__proto__"]: the owner is set and the [onAdd] hook is called, but
    no Added message is published and nothing is stored in the map. *)
Lemma addComponent_order_fails :
  (∃ (seen after : Store) (E1 : Entity),
     addComponent 0 (AComponent 0) holds_A_world
     = (Return tt,
        mkWorld after
          (trace holds_A_world
           ++ [Notify 0 (AddedComponent 0 0) seen; OnAddCall 0 0 after]))
     ∧ entities seen !! 0 = Some E1
     ∧ cm_get "A" (components E1) = Some 0)
  ∧ (∃ (after : Store),
       heap (store two_proto_world) !! 0
       = Some (mkComponent "__proto__" None true false)
       ∧ addComponent 0 (AComponent 0) two_proto_world
         = (Return tt,
            mkWorld after (trace two_proto_world ++ [OnAddCall 0 0 after]))
       ∧ heap after !! 0 = Some (mkComponent "__proto__" (Some 0) true false)
       ∧ entities after !! 0 = Some (mkEntity 0 [] false)).
Proof.
  split.
  - eexists _, _, _. split; [vm_compute; reflexivity|].
    split; reflexivity.
  - eexists _. split; [reflexivity|]. split; [vm_compute; reflexivity|].
    split; reflexivity.
Qed.

(** ** Keeping a property through a computation *)

Section Preserves.
Context (P : World -> Prop).

Lemma preserves_ret {A} (a : A) : preserves P (ret a).
Proof. by intros w Hw. Qed.

Lemma preserves_throw {A} (x : Exn) : preserves P (@throw A x).
Proof. by intros w Hw. Qed.

Lemma preserves_bind {A B} (m : M A) (k : A -> M B) :
  preserves P m -> (forall a, preserves P (k a)) -> preserves P (bind m k).
Proof.
  intros Hm Hk w Hw. unfold bind.
  specialize (Hm w Hw).
  destruct (m w) as [[a|x] w'] eqn:Hmw; simpl in Hm.
  - by apply Hk.
  - done.
Qed.

Lemma preserves_readEntity (e : eref) : preserves P (readEntity e).
Proof.
  intros w Hw. unfold readEntity.
  by destruct (entities (store w) !! e).
Qed.

Lemma preserves_readComponent (c : cref) : preserves P (readComponent c).
Proof.
  intros w Hw. unfold readComponent.
  by destruct (heap (store w) !! c).
Qed.

Lemma preserves_getProperty (this : eref) (k : string) :
  preserves P (getProperty this k).
Proof. intros w Hw. by rewrite getProperty_world. Qed.

Lemma preserves_forIn (keys : list string) (body : string -> M unit) :
  (forall k, preserves P (body k)) -> preserves P (forIn keys body).
Proof.
  intros Hbody. induction keys as [|k keys IH]; simpl.
  - apply preserves_ret.
  - apply preserves_bind; [apply Hbody | intros _; apply IH].
Qed.

Lemma preserves_if {A} (b : bool) (m1 m2 : M A) :
  preserves P m1 -> preserves P m2 -> preserves P (if b then m1 else m2).
Proof. by destruct b. Qed.

(** What the operations keep follows from what the writes keep. *)
Context
  (P_modifyComponent : forall c f, preserves P (modifyComponent c f))
  (P_allocComponent : forall v, preserves P (allocComponent v))
  (P_new_Entity : preserves P new_Entity)
  (P_set : forall e k v,
      preserves P
        (modifyEntity e (fun x => with_components (cm_set k v (components x)) x)))
  (P_delete : forall e k,
      preserves P
        (modifyEntity e (fun x => with_components (cm_delete k (components x)) x)))
  (P_setPrototypeOf : forall e c, preserves P (setPrototypeOf e c))
  (P_call : forall ev, (forall s, quiet (ev s)) -> preserves P (call ev)).

Lemma preserves_notifyAll (ch : eref) (m : Message) :
  preserves P (notifyAll ch m).
Proof. apply P_call. intros s e. done. Qed.

Lemma preserves_defineProperty (this : eref) (prop : string) (value : cref) :
  preserves P (defineProperty this prop value).
Proof.
  unfold defineProperty.
  apply preserves_bind; [apply preserves_notifyAll | intros _].
  apply preserves_bind; [apply P_set | intros _]. apply preserves_ret.
Qed.

Lemma preserves_deleteProperty (this : eref) (prop : string) :
  preserves P (deleteProperty this prop).
Proof.
  unfold deleteProperty.
  apply preserves_bind; [apply preserves_getProperty | intros p].
  destruct p as [x|]; [|apply preserves_ret].
  apply preserves_bind; [apply preserves_notifyAll | intros _].
  apply preserves_bind; [apply P_delete | intros _]. apply preserves_ret.
Qed.

Lemma preserves_setProperty (this : eref) (prop : string) (value : cref) :
  preserves P (setProperty this prop value).
Proof.
  unfold setProperty.
  apply preserves_bind; [apply preserves_readEntity | intros e].
  assert (Hdef : preserves P (defineProperty this prop value ;; ret tt)).
  { apply preserves_bind; [apply preserves_defineProperty | intros _].
    apply preserves_ret. }
  destruct (cm_get prop (components e)); [done|].
  destruct (String.eqb prop "__proto__"); [apply P_setPrototypeOf | done].
Qed.

Lemma preserves_addComponent_normal (this : eref) (c : cref) :
  preserves P (addComponent_normal this c).
Proof.
  unfold addComponent_normal.
  apply preserves_bind; [apply P_modifyComponent | intros _].
  apply preserves_bind; [apply preserves_readComponent | intros v].
  apply preserves_bind; [apply preserves_setProperty | intros _].
  apply preserves_if; [|apply preserves_ret].
  apply P_call. intros s e. done.
Qed.

Lemma preserves_inherited_keys (template : eref) :
  preserves P (inherited_keys template).
Proof.
  intros w Hw. unfold inherited_keys.
  by destruct (map_prototype (store w) template).
Qed.

Lemma preserves_Component_clone (c : cref) :
  preserves P (Component_clone c).
Proof.
  unfold Component_clone.
  apply preserves_bind; [apply preserves_readComponent | intros v].
  apply P_allocComponent.
Qed.

Lemma preserves_addComponent (this : eref) (component : ComponentOrEntity) :
  preserves P (addComponent this component).
Proof.
  destruct component as [c|template]; simpl.
  - apply preserves_addComponent_normal.
  - apply preserves_bind; [apply preserves_readEntity | intros t].
    apply preserves_bind; [|intros _; apply preserves_inherited_keys].
    apply preserves_forIn. intros k.
    apply preserves_bind; [apply preserves_readEntity | intros t'].
    destruct (cm_get k (components t')); [|apply preserves_ret].
    apply preserves_bind; [apply preserves_Component_clone | intros cl].
    apply preserves_addComponent_normal.
Qed.

Lemma preserves_removeComponent_at (this : eref) (key : ComponentType) :
  preserves P (removeComponent_at this key).
Proof.
  unfold removeComponent_at.
  apply preserves_bind; [apply preserves_getProperty | intros p].
  destruct p as [[c|i]|]; [| |apply preserves_ret].
  - apply preserves_bind; [apply P_modifyComponent | intros _].
    apply preserves_bind; [apply preserves_readComponent | intros v].
    apply preserves_bind.
    { apply preserves_if; [|apply preserves_ret].
      apply P_call. intros s e'. done. }
    intros _.
    apply preserves_bind; [apply preserves_deleteProperty | intros _].
    apply preserves_ret.
  - apply preserves_bind; [apply P_call; intros s e'; done | intros _].
    apply preserves_bind; [apply preserves_deleteProperty | intros _].
    apply preserves_ret.
Qed.

Lemma preserves_removeComponent (this : eref) (arg : TypeOrComponent) :
  preserves P (removeComponent this arg).
Proof.
  destruct arg as [t|c]; simpl.
  - apply preserves_removeComponent_at.
  - apply preserves_bind; [apply preserves_readComponent | intros v].
    apply preserves_removeComponent_at.
Qed.

Lemma preserves_has (this : eref) (t : ComponentType) :
  preserves P (has this t).
Proof.
  unfold has.
  apply preserves_bind; [apply preserves_getProperty | intros p].
  apply preserves_ret.
Qed.

Lemma preserves_types (this : eref) : preserves P (types this).
Proof.
  unfold types.
  apply preserves_bind; [apply preserves_readEntity | intros e].
  apply preserves_ret.
Qed.

Lemma preserves_clone (this : eref) : preserves P (clone this).
Proof.
  unfold clone.
  apply preserves_bind; [apply P_new_Entity | intros newEntity].
  apply preserves_bind; [apply preserves_types | intros ts].
  apply preserves_bind; [|intros _; apply preserves_ret].
  apply preserves_forIn. intros k. unfold clone_body.
  apply preserves_bind; [apply preserves_getProperty | intros p].
  destruct p as [[v|i]|]; [|apply preserves_throw..].
  apply preserves_bind; [apply preserves_Component_clone | intros cl].
  apply preserves_addComponent.
Qed.

Lemma preserves_preupdate (this : eref) (engine : Engine) (delta : DeltaTime) :
  preserves P (_preupdate this engine delta).
Proof.
  unfold _preupdate, emit.
  apply preserves_bind; [|intros _]; apply P_call; intros s e; simpl;
    by rewrite ?andb_false_r.
Qed.

Lemma preserves_postupdate (this : eref) (engine : Engine) (delta : DeltaTime) :
  preserves P (_postupdate this engine delta).
Proof.
  unfold _postupdate, emit.
  apply preserves_bind; [|intros _]; apply P_call; intros s e; simpl;
    by rewrite ?andb_false_r.
Qed.

(** [_initialize] is the one operation that writes the flag; it is
    taken as a whole. *)
Context (P_initialize : forall e engine, preserves P (_initialize e engine)).

Lemma preserves_perform (o : Op) : preserves P (perform o).
Proof.
  destruct o; simpl.
  - apply preserves_bind; [apply P_new_Entity | intros _; apply preserves_ret].
  - apply preserves_bind; [apply P_allocComponent | intros _; apply preserves_ret].
  - apply preserves_addComponent.
  - apply preserves_removeComponent.
  - apply preserves_bind; [apply preserves_has | intros _; apply preserves_ret].
  - apply preserves_bind; [apply preserves_types | intros _; apply preserves_ret].
  - apply preserves_bind; [apply preserves_clone | intros _; apply preserves_ret].
  - apply P_initialize.
  - apply preserves_preupdate.
  - apply preserves_postupdate.
Qed.

Lemma preserves_run (ops : list Op) (w : World) : P w -> P (run ops w).
Proof.
  revert w. induction ops as [|o ops IH]; intros w Hw; simpl; [done|].
  apply IH. by apply preserves_perform.
Qed.

End Preserves.

(** ** Entity identity *)

Lemma counter_kept_by_modifyComponent (n : nat) (c : cref)
    (f : Component -> Component) :
  preserves (fun w => n ≤ _ID (store w)) (modifyComponent c f).
Proof.
  intros w Hw. unfold modifyComponent.
  by destruct (heap (store w) !! c).
Qed.

Lemma counter_kept_by_modifyEntity (n : nat) (e : eref) (f : Entity -> Entity) :
  preserves (fun w => n ≤ _ID (store w)) (modifyEntity e f).
Proof.
  intros w Hw. unfold modifyEntity.
  by destruct (entities (store w) !! e).
Qed.

Lemma counter_kept_by_new_Entity (n : nat) :
  preserves (fun w => n ≤ _ID (store w)) new_Entity.
Proof. intros w Hw. simpl. lia. Qed.

Lemma counter_kept_by_initialize (n : nat) (e : eref) (engine : Engine) :
  preserves (fun w => n ≤ _ID (store w)) (_initialize e engine).
Proof.
  unfold _initialize, isInitialized, emit.
  apply preserves_bind.
  { apply preserves_bind; [apply preserves_readEntity | intros v].
    apply preserves_ret. }
  intros b. apply preserves_if; [|apply preserves_ret].
  apply preserves_bind; [by intros w Hw | intros _].
  apply preserves_bind; [by intros w Hw | intros _].
  apply counter_kept_by_modifyEntity.
Qed.

(** No call on the interface ever lowers [Entity._ID]. *)
Lemma counter_never_decreases (ops : list Op) (w : World) :
  _ID (store w) ≤ _ID (store (run ops w)).
Proof.
  apply (preserves_run (fun w' => _ID (store w) ≤ _ID (store w')));
    [..|done].
  - intros c f. apply counter_kept_by_modifyComponent.
  - by intros v w' Hw'.
  - apply counter_kept_by_new_Entity.
  - intros e k v. apply counter_kept_by_modifyEntity.
  - intros e k. apply counter_kept_by_modifyEntity.
  - by intros e c w' Hw'.
  - by intros ev _ w' Hw'.
  - intros e engine. apply counter_kept_by_initialize.
Qed.

(** C7. Entities are constructed in sequence, with any calls on the
    interface in between (other constructions and clones among them).
    Every construction succeeds, and the ids obtained are strictly
    increasing, hence pairwise distinct; each is the value of the counter
    at its construction, and the counter never goes down. *)
Theorem constructed_ids_strictly_increase (interludes : list (list Op))
    (w : World) :
  ∃ (ids : list nat) (w' : World),
    construct_each interludes w = (Return ids, w')
    ∧ length ids = length interludes
    ∧ StronglySorted lt ids
    ∧ NoDup ids
    ∧ Forall (fun i => _ID (store w) ≤ i < _ID (store w')) ids
    ∧ _ID (store w) ≤ _ID (store w').
Proof.
  revert w. induction interludes as [|ops rest IH]; intros w.
  - exists [], w. simpl. repeat split; try constructor; lia.
  - set (w1 := run ops w).
    destruct (IH (new_Entity w1).2) as (ids & w' & Hrun & Hlen & Hsort & Hnd & Hall & Hle).
    assert (Hw1 : _ID (store w) ≤ _ID (store w1)) by apply counter_never_decreases.
    simpl in Hall, Hle.
    exists (_ID (store w1) :: ids), w'.
    split.
    { simpl. unfold bind, readEntity. fold w1. simpl.
      rewrite list_lookup_middle; [|done]. simpl.
      simpl in Hrun. by rewrite Hrun. }
    split; [simpl; by rewrite Hlen|].
    assert (Hgt : Forall (lt (_ID (store w1))) ids).
    { eapply list.Forall_impl; [exact Hall|]. simpl. intros i Hi. lia. }
    split; [by constructor|].
    split.
    { apply list.NoDup_cons. split; [|done].
      intros Hin. rewrite list.Forall_forall in Hgt.
      specialize (Hgt _ Hin). lia. }
    split; [|lia].
    constructor; [lia|].
    eapply list.Forall_impl; [exact Hall|]. simpl. intros i Hi. lia.
Qed.

Lemma ids_kept_by_modifyEntity (e : eref) (f : Entity -> Entity) :
  (∀ v, id (f v) = id v) → preserves ids_in_order (modifyEntity e f).
Proof.
  intros Hf w [Hids Hctr]. unfold modifyEntity.
  destruct (entities (store w) !! e) as [v|] eqn:He; [|done].
  split; simpl.
  - rewrite length_insert, <- Hids.
    rewrite list_fmap_insert, Hf.
    apply list_insert_id. by rewrite list_lookup_fmap, He.
  - by rewrite length_insert.
Qed.

Lemma ids_kept_by_new_Entity : preserves ids_in_order new_Entity.
Proof.
  intros w [Hids Hctr]. split; simpl.
  - rewrite fmap_app, length_app, Hids, Hctr. simpl.
    by rewrite Nat.add_1_r, seq_S.
  - rewrite length_app. simpl. lia.
Qed.

Lemma ids_kept_by_initialize (e : eref) (engine : Engine) :
  preserves ids_in_order (_initialize e engine).
Proof.
  unfold _initialize, isInitialized, emit.
  apply preserves_bind.
  { apply preserves_bind; [apply preserves_readEntity | intros v].
    apply preserves_ret. }
  intros b. apply preserves_if; [|apply preserves_ret].
  apply preserves_bind; [by intros w Hw | intros _].
  apply preserves_bind; [by intros w Hw | intros _].
  by apply ids_kept_by_modifyEntity.
Qed.

(** In every world built through the interface from nothing, the entity
    at address [e] has the id [e]: ids are unique, and none is reused. *)
Lemma ids_in_order_run (ops : list Op) :
  ids_in_order (run ops empty_world).
Proof.
  apply preserves_run; [..|done].
  - intros c f w Hw. unfold modifyComponent.
    by destruct (heap (store w) !! c).
  - by intros v w Hw.
  - apply ids_kept_by_new_Entity.
  - intros e k v. by apply ids_kept_by_modifyEntity.
  - intros e k. by apply ids_kept_by_modifyEntity.
  - by intros e c w Hw.
  - by intros ev _ w Hw.
  - apply ids_kept_by_initialize.
Qed.

Lemma ids_unique (ops : list Op) :
  NoDup (id <$> entities (store (run ops empty_world))).
Proof.
  destruct (ids_in_order_run ops) as [-> _]. apply NoDup_seq.
Qed.

(** ** The lifecycle *)

Lemma onInitialize_calls_app (e : eref) (t1 t2 : list Event) :
  onInitialize_calls e (t1 ++ t2)
  = onInitialize_calls e t1 + onInitialize_calls e t2.
Proof.
  induction t1 as [|ev t1 IH]; simpl; [done|].
  destruct ev; try done. rewrite IH. lia.
Qed.

Lemma emitted_app (e : eref) (name : string) (t1 t2 : list Event) :
  emitted e name (t1 ++ t2) = emitted e name t1 + emitted e name t2.
Proof.
  induction t1 as [|ev t1 IH]; simpl; [done|].
  destruct ev; try done. rewrite IH. lia.
Qed.

Lemma entities_modifyEntity (w : World) (e e' : eref) (f : Entity -> Entity) :
  entities (store (modifyEntity e f w).2) !! e'
  = if decide (e = e') then f <$> entities (store w) !! e'
    else entities (store w) !! e'.
Proof.
  unfold modifyEntity.
  destruct (entities (store w) !! e) as [v|] eqn:He; simpl.
  - case_decide as Hee.
    + subst e'. rewrite He. simpl. by eapply lookup_insert_same.
    + by rewrite list_lookup_insert_ne.
  - case_decide as Hee; [|done]. subst e'. by rewrite He.
Qed.

Lemma trace_modifyEntity (w : World) (e : eref) (f : Entity -> Entity) :
  trace (modifyEntity e f w).2 = trace w.
Proof.
  unfold modifyEntity. by destruct (entities (store w) !! e).
Qed.

Lemma init_count_modifyEntity (w : World) (e e' : eref) (f : Entity -> Entity) :
  (∀ v, _isInitialized (f v) = _isInitialized v) →
  init_count (store (modifyEntity e f w).2) e' = init_count (store w) e'.
Proof.
  intros Hf. unfold init_count. rewrite entities_modifyEntity.
  case_decide; [|done].
  destruct (entities (store w) !! e'); simpl; [by rewrite Hf | done].
Qed.

Lemma lifecycle_kept_by_modifyEntity (e : eref) (f : Entity -> Entity) :
  (∀ v, _isInitialized (f v) = _isInitialized v) →
  preserves lifecycle_ok (modifyEntity e f).
Proof.
  intros Hf w Hw e'. rewrite trace_modifyEntity.
  rewrite init_count_modifyEntity; [apply Hw | done].
Qed.

Lemma lifecycle_kept_by_modifyComponent (c : cref) (f : Component -> Component) :
  preserves lifecycle_ok (modifyComponent c f).
Proof.
  intros w Hw. unfold modifyComponent.
  by destruct (heap (store w) !! c).
Qed.

Lemma lifecycle_kept_by_new_Entity : preserves lifecycle_ok new_Entity.
Proof.
  intros w Hw e. specialize (Hw e). simpl.
  assert (Hcount : init_count
            (with_ID (S (_ID (store w)))
               (with_entities
                  (entities (store w) ++ [mkEntity (_ID (store w)) [] false])
                  (store w))) e = init_count (store w) e); [|by rewrite Hcount].
  unfold init_count. simpl.
  destruct (decide (e < length (entities (store w)))) as [Hlt|Hge].
  - by rewrite lookup_app_l.
  - rewrite (lookup_ge_None_2 (entities (store w))); [|lia].
    destruct (decide (e = length (entities (store w)))) as [->|Hne].
    + by rewrite list_lookup_middle.
    + rewrite lookup_ge_None_2; [done|]. rewrite length_app. simpl. lia.
Qed.

Lemma lifecycle_kept_by_call (ev : Store -> Event) :
  (∀ s, quiet (ev s)) → preserves lifecycle_ok (call ev).
Proof.
  intros Hq w Hw e. simpl.
  rewrite onInitialize_calls_app, emitted_app.
  destruct (Hq (store w) e) as [-> ->].
  rewrite !Nat.add_0_r. apply Hw.
Qed.

(** [_initialize] in closed form. *)
Lemma initialize_run (w : World) (e : eref) (E : Entity) (engine : Engine) :
  entities (store w) !! e = Some E →
  _initialize e engine w
  = (Return tt,
     if _isInitialized E then w
     else {| store := with_entities
                        (<[e := with_isInitialized true E]> (entities (store w)))
                        (store w);
             trace := (trace w ++ [OnInitializeCall e engine])
                      ++ [Emit e "initialize" (InitializeEvent engine e)] |}).
Proof.
  intros He.
  unfold _initialize, isInitialized, emit, call, bind, readEntity,
    modifyEntity, ret.
  rewrite He. destruct (_isInitialized E); simpl; [done|]. by rewrite He.
Qed.

Lemma initialize_dangling (w : World) (e : eref) (engine : Engine) :
  entities (store w) !! e = None →
  _initialize e engine w = (Throw DanglingReference, w).
Proof.
  intros He. unfold _initialize, isInitialized, bind, readEntity.
  by rewrite He.
Qed.

Lemma lifecycle_kept_by_initialize (e : eref) (engine : Engine) :
  preserves lifecycle_ok (_initialize e engine).
Proof.
  intros w Hw.
  destruct (entities (store w) !! e) as [E|] eqn:He.
  - rewrite (initialize_run w e E engine He). simpl.
    destruct (_isInitialized E) eqn:Hinit; [done|].
    intros e'. specialize (Hw e'). simpl.
    rewrite !onInitialize_calls_app, !emitted_app. simpl.
    unfold init_count in *. simpl.
    destruct (decide (e = e')) as [<-|Hne].
    + rewrite He, Hinit in Hw. destruct Hw as [-> ->].
      erewrite lookup_insert_same; [|exact He]. simpl.
      by rewrite Nat.eqb_refl.
    + rewrite list_lookup_insert_ne; [|done].
      destruct Hw as [-> ->].
      assert (Nat.eqb e' e = false) as ->.
      { apply Nat.eqb_neq. congruence. }
      simpl. by rewrite !Nat.add_0_r.
  - by rewrite (initialize_dangling w e engine He).
Qed.

(** Every world that calls on the interface lead to from a consistent
    world is consistent. *)
Lemma lifecycle_ok_run (ops : list Op) (w : World) :
  lifecycle_ok w → lifecycle_ok (run ops w).
Proof.
  apply preserves_run.
  - apply lifecycle_kept_by_modifyComponent.
  - by intros v w' Hw'.
  - apply lifecycle_kept_by_new_Entity.
  - intros e k v. by apply lifecycle_kept_by_modifyEntity.
  - intros e k. by apply lifecycle_kept_by_modifyEntity.
  - by intros e c w' Hw'.
  - apply lifecycle_kept_by_call.
  - apply lifecycle_kept_by_initialize.
Qed.

Lemma lifecycle_ok_empty : lifecycle_ok empty_world.
Proof. intros e. unfold init_count. simpl. by destruct e. Qed.

(** C6. In any world that a program over the interface builds from
    nothing, [_initialize] is called twice on an entity, with any engine
    contexts.  Both calls return; [isInitialized] is true after the first
    call; the second call changes nothing, so it stays true; and over the
    whole history the [onInitialize] hook has run once and the
    ["initialize"] event was emitted once. *)
Theorem initialize_twice_fires_once (ops : list Op) (e : eref) (E : Entity)
    (engine1 engine2 : Engine) :
  entities (store (run ops empty_world)) !! e = Some E →
  ∃ w1 : World,
    _initialize e engine1 (run ops empty_world) = (Return tt, w1)
    ∧ isInitialized e w1 = (Return true, w1)
    ∧ _initialize e engine2 w1 = (Return tt, w1)
    ∧ onInitialize_calls e (trace w1) = 1
    ∧ emitted e "initialize" (trace w1) = 1.
Proof.
  intros He. set (w := run ops empty_world) in *.
  assert (Hok : lifecycle_ok w) by apply lifecycle_ok_run, lifecycle_ok_empty.
  pose proof (lifecycle_kept_by_initialize e engine1 w Hok) as Hok1.
  rewrite (initialize_run w e E engine1 He) in *. simpl in Hok1.
  eexists. split; [reflexivity|].
  assert (Hflag : ∃ E1, entities (store (if _isInitialized E then w else
             {| store := with_entities
                        (<[e := with_isInitialized true E]> (entities (store w)))
                        (store w);
                trace := (trace w ++ [OnInitializeCall e engine1])
                      ++ [Emit e "initialize" (InitializeEvent engine1 e)] |}))
             !! e = Some E1 ∧ _isInitialized E1 = true).
  { destruct (_isInitialized E) eqn:Hinit.
    - by exists E.
    - eexists. split; [simpl; by eapply lookup_insert_same | done]. }
  destruct Hflag as (E1 & HE1 & Hinit1).
  split.
  { unfold isInitialized, bind, readEntity, ret. rewrite HE1. by rewrite Hinit1. }
  split.
  { rewrite (initialize_run _ e E1 engine2 HE1). by rewrite Hinit1. }
  destruct (Hok1 e) as [Hc He'].
  unfold init_count in Hc, He'. rewrite HE1, Hinit1 in Hc, He'. done.
Qed.

Lemma initialize_twice_fires_once_witness :
  ∃ w1 : World,
    _initialize 0 7 (run [NewEntity] empty_world) = (Return tt, w1)
    ∧ isInitialized 0 w1 = (Return true, w1)
    ∧ _initialize 0 8 w1 = (Return tt, w1)
    ∧ onInitialize_calls 0 (trace w1) = 1
    ∧ emitted 0 "initialize" (trace w1) = 1.
Proof.
  apply (initialize_twice_fires_once [NewEntity] 0 (mkEntity 0 [] false) 7 8).
  reflexivity.
Defined.

(** ** Keys stay distinct *)

Lemma cm_delete_keys_elem (k k0 : ComponentType) (m : ComponentMap) :
  k0 ∈ (cm_delete k m).*1 → k0 ∈ m.*1.
Proof.
  induction m as [|[k' v'] m IH]; simpl; [done|].
  destruct (String.eqb k k'); simpl; intros Hin.
  - apply list_elem_of_further. by apply IH.
  - apply elem_of_cons in Hin as [->|Hin]; [apply list_elem_of_here|].
    apply list_elem_of_further. by apply IH.
Qed.

Lemma cm_delete_NoDup (k : ComponentType) (m : ComponentMap) :
  NoDup m.*1 → NoDup (cm_delete k m).*1.
Proof.
  induction m as [|[k' v'] m IH]; simpl; intros Hnd; [done|].
  apply list.NoDup_cons in Hnd as [Hnotin Hnd].
  destruct (String.eqb k k'); simpl; [by apply IH|].
  apply list.NoDup_cons. split; [|by apply IH].
  intros Hin. by apply cm_delete_keys_elem in Hin.
Qed.

Lemma maps_wf_kept_by_modifyEntity (e : eref) (f : Entity -> Entity) :
  (∀ v, NoDup (components v).*1 → NoDup (components (f v)).*1) →
  preserves maps_wf (modifyEntity e f).
Proof.
  intros Hf w Hw e' E' HE'. rewrite entities_modifyEntity in HE'.
  case_decide as Hee; [|by eapply Hw].
  destruct (entities (store w) !! e') as [v|] eqn:Hv; simpl in HE'; [|done].
  injection HE' as <-. apply Hf. by eapply Hw.
Qed.

Lemma maps_wf_kept_by_new_Entity : preserves maps_wf new_Entity.
Proof.
  intros w Hw e E. simpl. intros HE.
  apply lookup_app_Some in HE as [HE|[_ HE]]; [by eapply Hw|].
  destruct (e - length (entities (store w))) as [|n]; simpl in HE; [|done].
  injection HE as <-. simpl. constructor.
Qed.

(** In every world built through the interface, each component map has
    each of its keys once. *)
Lemma maps_wf_run (ops : list Op) (w : World) :
  maps_wf w → maps_wf (run ops w).
Proof.
  apply preserves_run.
  - intros c f w' Hw'. unfold modifyComponent.
    by destruct (heap (store w') !! c).
  - by intros v w' Hw'.
  - apply maps_wf_kept_by_new_Entity.
  - intros e k v. apply maps_wf_kept_by_modifyEntity.
    intros x. apply cm_set_NoDup.
  - intros e k. apply maps_wf_kept_by_modifyEntity.
    intros x. apply cm_delete_NoDup.
  - by intros e c w' Hw'.
  - by intros ev _ w' Hw'.
  - intros e engine w' Hw'.
    destruct (entities (store w') !! e) as [E|] eqn:He.
    + rewrite (initialize_run w' e E engine He). simpl.
      destruct (_isInitialized E); [done|].
      intros e' E' HE'. simpl in HE'.
      destruct (decide (e = e')) as [<-|Hne].
      * erewrite lookup_insert_same in HE'; [|exact He].
        injection HE' as <-. simpl. by eapply Hw'.
      * rewrite list_lookup_insert_ne in HE'; [by eapply Hw' | done].
    + by rewrite (initialize_dangling w' e engine He).
Qed.

Lemma maps_wf_empty : maps_wf empty_world.
Proof. intros e E HE. by destruct e. Qed.

(** ** Enumeration of the keys *)

Example own_keys_order :
  own_keys [("b", 1); ("10", 2); ("9", 3); ("a", 4); ("01", 5)]
  = ["9"; "10"; "b"; "a"; "01"].
Proof. reflexivity. Qed.

Example array_keys_are_indices : array_keys ["A"; "B"; "C"] = ["0"; "1"; "2"].
Proof. reflexivity. Qed.

Lemma insert_index_elem (n : N) (k : string) (l : list (N * string))
    (x : N * string) :
  x ∈ insert_index n k l ↔ x = (n, k) ∨ x ∈ l.
Proof.
  induction l as [|[n' k'] l IH]; simpl.
  - rewrite list_elem_of_singleton. split; [by left|].
    intros [H|H]; [done|]. by apply elem_of_nil in H.
  - destruct (n <? n')%N.
    + by rewrite elem_of_cons.
    + rewrite !elem_of_cons, IH. tauto.
Qed.

Lemma index_keys_elem (ks : list string) (k : string) :
  k ∈ (index_keys ks).*2 ↔ k ∈ ks ∧ is_Some (array_index k).
Proof.
  induction ks as [|k0 ks IH]; simpl.
  - split; [intros H; by apply elem_of_nil in H|].
    intros [H _]. by apply elem_of_nil in H.
  - destruct (array_index k0) as [n|] eqn:Hk0.
    + rewrite list_elem_of_fmap. split.
      * intros ([n' k'] & -> & Hin). simpl.
        apply insert_index_elem in Hin as [Heq|Hin].
        -- injection Heq as -> ->. split; [apply list_elem_of_here|].
           by rewrite Hk0.
        -- assert (Hk' : k' ∈ (index_keys ks).*2).
           { apply list_elem_of_fmap. by exists (n', k'). }
           apply IH in Hk' as [Hin' Hidx].
           split; [by apply list_elem_of_further | done].
      * intros [Hin Hidx]. apply elem_of_cons in Hin as [->|Hin].
        -- exists (n, k0). split; [done|].
           apply insert_index_elem. by left.
        -- assert (Hk' : k ∈ (index_keys ks).*2) by by apply IH.
           apply list_elem_of_fmap in Hk' as ([n' k'] & -> & Hin').
           exists (n', k'). split; [done|].
           apply insert_index_elem. by right.
    + rewrite IH, elem_of_cons. split.
      * intros [Hin Hidx]. split; [by right | done].
      * intros [[->|Hin] Hidx]; [|done].
        rewrite Hk0 in Hidx. by destruct Hidx.
Qed.

Lemma named_keys_elem (ks : list string) (k : string) :
  k ∈ named_keys ks ↔ k ∈ ks ∧ array_index k = None.
Proof.
  induction ks as [|k0 ks IH]; simpl.
  - split; [intros H; by apply elem_of_nil in H|].
    intros [H _]. by apply elem_of_nil in H.
  - destruct (array_index k0) as [n|] eqn:Hk0.
    + rewrite IH, elem_of_cons. split.
      * intros [Hin Hidx]. split; [by right | done].
      * intros [[->|Hin] Hidx]; [congruence | done].
    + rewrite !elem_of_cons, IH. split.
      * intros [->|[Hin Hidx]]; [by split; [left|] | by split; [right|]].
      * intros [[->|Hin] Hidx]; [by left | by right].
Qed.

(** [for...in] visits the keys of the object, all of them and no other. *)
Lemma own_keys_elem (m : ComponentMap) (k : string) :
  k ∈ own_keys m ↔ k ∈ m.*1.
Proof.
  unfold own_keys. rewrite elem_of_app, index_keys_elem, named_keys_elem.
  split.
  - intros [[Hin _]|[Hin _]]; done.
  - intros Hin. destruct (array_index k) eqn:Hk.
    + left. split; [done | by eexists].
    + by right.
Qed.

Lemma cm_get_is_Some (k : ComponentType) (m : ComponentMap) :
  k ∈ m.*1 → is_Some (cm_get k m).
Proof.
  induction m as [|[k' v'] m IH]; simpl; intros Hin.
  - by apply elem_of_nil in Hin.
  - destruct (String.eqb_spec k k') as [->|Hk]; [by eexists|].
    apply elem_of_cons in Hin as [?|Hin]; [done | by apply IH].
Qed.

Lemma typed_map_lookup (h : list Component) (m : ComponentMap)
    (k : ComponentType) (c : cref) :
  typed_map h m = true → cm_get k m = Some c →
  ∃ C, h !! c = Some C ∧ type C = k.
Proof.
  intros Hty Hget. apply cm_get_Some_elem in Hget.
  unfold typed_map in Hty. rewrite forallb_forall in Hty.
  apply list_elem_of_In in Hget. specialize (Hty _ Hget). simpl in Hty.
  destruct (h !! c) as [C|]; [|done].
  exists C. split; [done|]. by apply String.eqb_eq.
Qed.

(** ** Prefab expansion *)

Section Prefab.
Context (this template : eref) (T : Entity) (Hdistinct : this ≠ template).



End Prefab.




(** ** [clone] *)

(** The loop of [clone] reads the map at the indices of the array of
    types.  When the map is not empty and has no key ["0"], the first
    turn of the loop throws; the new entity has been constructed by
    then, and it stays empty. *)
Lemma clone_throws_without_key_0 (w : World) (this : eref) (E : Entity) :
  entities (store w) !! this = Some E →
  components E ≠ [] →
  cm_get "0" (components E) = None →
  clone this w
  = (Throw (TypeError "Cannot read property 'clone' of undefined"),
     (new_Entity w).2).
Proof.
  intros He Hne H0.
  assert (Hkeys : ∃ k ks, own_keys (components E) = k :: ks).
  { destruct (components E) as [|[k0 v0] m] eqn:Hm; [done|].
    destruct (own_keys ((k0, v0) :: m)) as [|k ks] eqn:Hown; [|by eauto].
    assert (Hin : k0 ∈ own_keys ((k0, v0) :: m)).
    { apply own_keys_elem. simpl. apply list_elem_of_here. }
    rewrite Hown in Hin. by apply elem_of_nil in Hin. }
  destruct Hkeys as (k & ks & Hkeys).
  assert (He' : entities (store (new_Entity w).2) !! this = Some E).
  { simpl. by apply lookup_app_l_Some. }
  simpl in He'. unfold clone.
  erewrite bind_Return; [|reflexivity].
  erewrite bind_Return;
    [|unfold types; erewrite bind_Return; [reflexivity|];
      unfold readEntity; simpl; by rewrite He'].
  rewrite Hkeys. simpl.
  erewrite bind_Throw; [reflexivity|].
  erewrite bind_Throw; [reflexivity|].
  unfold clone_body. change (string_of_nat 0) with "0".
  erewrite bind_Return;
    [|apply (getProperty_absent _ this "0" E);
      [exact He' | exact H0 | by apply digit_key_not_inherited]].
  reflexivity.
Qed.

(** C1, on the code.  The entity 0 holds components of the types ["A"]
    and ["B"]; [clone()] does not return an entity: it throws a
    [TypeError] on reading [this.components["0"].clone]. *)
Theorem clone_of_A_B_entity_throws :
  has 0 "A" A_B_world = (Return true, A_B_world)
  ∧ has 0 "B" A_B_world = (Return true, A_B_world)
  ∧ ∃ w' : World,
      clone 0 A_B_world
      = (Throw (TypeError "Cannot read property 'clone' of undefined"), w').
Proof.
  split; [reflexivity|]. split; [reflexivity|].
  eexists. vm_compute. reflexivity.
Qed.

(** When the keys of the map are the indices themselves, the loop finds a
    component at each index and [clone] returns: the new entity 1 holds
    the clones 2 and 3. *)
Example clone_with_index_keys :
  ∃ w' : World,
    clone 0 index_keys_world = (Return 1, w')
    ∧ components <$> entities (store w') !! 1 = Some [("0", 2); ("1", 3)]
    ∧ published 1 (trace w') = [AddedComponent 2 1; AddedComponent 3 1].
Proof.
  eexists. split; [vm_compute; reflexivity|]. split; reflexivity.
Qed.

(** ** More on the logger *)

(** X1. A [null] level is replaced by the threshold itself, so the message is
    never filtered: every appender gets it, at the default level. *)
Theorem log_without_level_reaches_every_appender (lg : ex.Logger)
    (args : list ex.JsValue) :
  ex._log lg None args
  = (fun a => ex.mkLogCall a (ex.defaultLevel lg) args) <$> ex.appenders lg.
Proof.
  unfold ex._log. rewrite Nat.leb_refl.
  induction (ex.appenders lg) as [|a l IH]; simpl; [done|]. by rewrite IH.
Qed.

(** X2. The filter is monotone in the level: when a message at level [L]
    reaches an appender, a message at any level [L'] at or above [L]
    reaches every appender. *)
Theorem higher_level_is_forwarded_too (lg : ex.Logger) (L L' : ex.LogLevel)
    (args args' : list ex.JsValue) :
  ex.level_num L ≤ ex.level_num L' →
  ex._log lg (Some L) args ≠ [] →
  ex._log lg (Some L') args'
  = (fun a => ex.mkLogCall a L' args') <$> ex.appenders lg.
Proof.
  intros HLL Hsome. apply log_calls_above.
  destruct (decide (ex.level_num (ex.defaultLevel lg) ≤ ex.level_num L))
    as [Hle|Hgt]; [lia|].
  exfalso. apply Hsome. apply log_calls_below. lia.
Qed.

Lemma higher_level_is_forwarded_too_witness :
  ex._log (ex.mkLogger [ex.ConsoleAppender] ex.Warn) (Some ex.Error)
    [ex.JsStr "disk"]
  = [ex.mkLogCall ex.ConsoleAppender ex.Error [ex.JsStr "disk"]].
Proof.
  apply (higher_level_is_forwarded_too
           (ex.mkLogger [ex.ConsoleAppender] ex.Warn) ex.Warn ex.Error
           [ex.JsNull] [ex.JsStr "disk"]).
  - simpl. lia.
  - discriminate.
Defined.

(** X3. The two ends of the scale: [fatal] is never filtered, whatever the
    threshold, and [debug] is filtered unless the threshold is [Debug]. *)
Theorem fatal_always_debug_only_at_Debug (lg : ex.Logger)
    (args : list ex.JsValue) :
  ex.fatal lg args
  = (fun a => ex.mkLogCall a ex.Fatal args) <$> ex.appenders lg
  ∧ (ex.defaultLevel lg = ex.Debug ∨ ex.debug lg args = []).
Proof.
  split.
  - apply log_calls_above. destruct (ex.defaultLevel lg); simpl; lia.
  - destruct (ex.defaultLevel lg) eqn:Hd; [by left|..]; right;
      apply log_calls_below; rewrite Hd; simpl; lia.
Qed.

(** X4. Once [getInstance] has been called there is a logger, [getInstance]
    keeps returning that same logger, and [new Logger()] throws and
    leaves the singleton as it is. *)
Theorem getInstance_then_constructor_throws (_instance : option ex.Logger) :
  ∃ lg : ex.Logger,
    Logger_getInstance _instance = (inr lg, Some lg)
    ∧ Logger_getInstance (Some lg) = (inr lg, Some lg)
    ∧ Logger_new (Some lg) = (inl "Logger is a singleton", Some lg)
    ∧ (_instance = None →
       lg = ex.mkLogger [] ex.Info ∧ Logger_new _instance = (inr lg, Some lg)).
Proof.
  destruct _instance as [lg|].
  - exists lg. by repeat split.
  - eexists. by repeat split.
Qed.

(** X5. From the logger to the console.  With only console appenders
    registered, a message at or above the threshold makes one console call
    for each of them: [console.log] for Debug and Info, [console.warn] for
    Warn, [console.error] for Error and Fatal, with the arguments
    unchanged behind the tag ["[Level] : "].  A message below the
    threshold makes no console call. *)
Theorem logger_to_console (n : nat) (d L : ex.LogLevel)
    (args : list ex.JsValue) :
  console_calls
    (ex._log (ex.mkLogger (replicate n ex.ConsoleAppender) d) (Some L) args)
  = if bool_decide (ex.level_num d ≤ ex.level_num L)
    then replicate n
           (match L with
            | ex.Debug | ex.Info => ex.console_log
            | ex.Warn => ex.console_warn
            | ex.Error | ex.Fatal => ex.console_error
            end,
            ex.JsStr ("[" ++ ex.level_name L ++ "] : ") :: args)
    else [].
Proof.
  case_bool_decide as Hd.
  - rewrite log_calls_above; [|done]. simpl.
    induction n as [|n IH]; [done|].
    cbn [replicate fmap list_fmap console_calls flat_map app ex.call_appender
         ex.call_level ex.call_args].
    unfold console_calls in IH. rewrite IH. f_equal. by destruct L.
  - rewrite log_calls_below; [done | simpl; lia].
Qed.

(** ** The screen appender *)

Lemma draw_messages_length (messages : list string) (pos : nat)
    (opacity : float) :
  length (draw_messages messages pos opacity) = 2 * length messages.
Proof.
  revert pos opacity. induction messages as [|m rest IH]; intros pos opacity;
    simpl; [done|].
  rewrite IH. lia.
Qed.

Lemma draw_messages_lookup (messages : list string) (pos : nat)
    (opacity : float) (i : nat) (m : string) :
  messages !! i = Some m →
  draw_messages messages pos opacity !! (2 * i)
  = Some (set_fillStyle 255 255 255 (Nat.iter i next_opacity opacity))
  ∧ draw_messages messages pos opacity !! (2 * i + 1)
    = Some (fillText m 200 (pos + 10 * i)).
Proof.
  revert pos opacity i.
  induction messages as [|m0 rest IH]; intros pos opacity i Hi; [done|].
  destruct i as [|i]; simpl in Hi.
  - injection Hi as ->. simpl. split; [done|]. by rewrite Nat.add_0_r.
  - destruct (IH (pos + 10) (next_opacity opacity) i Hi) as [Hstyle Htext].
    replace (2 * S i) with (S (S (2 * i))) by lia.
    replace (S (S (2 * i)) + 1) with (S (S (2 * i + 1))) by lia.
    rewrite Nat.iter_succ_r.
    replace (pos + 10 * S i) with (pos + 10 + 10 * i) by lia.
    split; [exact Hstyle | exact Htext].
Qed.

Lemma opacity_zero_stays (k : nat) : Nat.iter k next_opacity 0%float = 0%float.
Proof. induction k as [|k IH]; simpl; [done|]. by rewrite IH. Qed.

(** The opacity of the line [i] is positive for the first twenty lines
    and for no other: the subtraction of .05 leaves a tiny negative number
    at the line 20, and 0 from the line 21 on. *)
Lemma opacity_positive_iff (i : nat) :
  PrimFloat.ltb 0 (Nat.iter i next_opacity 1%float) = true ↔ i < 20.
Proof.
  destruct (decide (i < 21)) as [Hlt|Hge].
  - do 21 (destruct i as [|i];
             [split; intros H;
                [first [lia | vm_compute in H; discriminate]
                | first [vm_compute; reflexivity | lia] ]
             |]).
    lia.
  - replace i with ((i - 21) + 21) by lia.
    rewrite Nat.iter_add.
    assert (Nat.iter 21 next_opacity 1%float = 0%float) as -> by (vm_compute; reflexivity).
    rewrite opacity_zero_stays. split; [done | lia].
Qed.

Section ScreenAppenderFacts.
Context (number_toString : Z -> string).

Lemma log_all_messages (s : ScreenAppenderState)
    (msgs : list (ex.LogLevel * list ex.JsValue)) :
  _messages (ScreenAppender_log_all number_toString s msgs)
  = rev ((fun m => screen_line number_toString m.1 m.2) <$> msgs)
    ++ _messages s.
Proof.
  revert s. induction msgs as [|m msgs IH]; intros s; simpl; [done|].
  unfold ScreenAppender_log_all in *. simpl. rewrite IH. simpl.
  by rewrite <- app_assoc.
Qed.

Lemma log_all_canvas (s : ScreenAppenderState)
    (msgs : list (ex.LogLevel * list ex.JsValue)) :
  canvas_width (ScreenAppender_log_all number_toString s msgs) = canvas_width s
  ∧ canvas_height (ScreenAppender_log_all number_toString s msgs)
    = canvas_height s.
Proof.
  revert s. induction msgs as [|m msgs IH]; intros s; [done|].
  exact (IH {| canvas_width := canvas_width s;
               canvas_height := canvas_height s;
               _messages := screen_line number_toString m.1 m.2
                            :: _messages s |}).
Qed.

(** X6. The screen appender keeps every line it was ever given: after any
    sequence of messages, [_messages] holds one line for each, the newest
    first, in front of the lines it had; no line is dropped, and the size of
    the canvas stays. *)
Theorem screen_keeps_every_line (s : ScreenAppenderState)
    (msgs : list (ex.LogLevel * list ex.JsValue)) :
  let s' := ScreenAppender_log_all number_toString s msgs in
  _messages s'
  = rev ((fun m => screen_line number_toString m.1 m.2) <$> msgs)
    ++ _messages s
  ∧ length (_messages s') = length msgs + length (_messages s)
  ∧ canvas_width s' = canvas_width s
  ∧ canvas_height s' = canvas_height s.
Proof.
  intros s'. unfold s'. rewrite log_all_messages.
  split; [done|].
  split; [by rewrite length_app, length_rev, length_fmap|].
  apply log_all_canvas.
Qed.

(** X7. What one [log] call draws: it clears the whole canvas, then takes
    the lines newest first; the line [i] is written at x = 200 and
    y = 10 + 10 i, after its fill style is set.  The new line is the
    line 0 and reads ["[Level] : "] and then the arguments joined by
    commas. *)
Theorem screen_draws_lines_top_down (s : ScreenAppenderState)
    (level : ex.LogLevel) (args : list ex.JsValue) :
  let (s', calls) := ScreenAppender_log number_toString s level args in
  calls !! 0 = Some (clearRect 0 0 (canvas_width s) (canvas_height s))
  ∧ length calls = 1 + 2 * length (_messages s')
  ∧ _messages s' !! 0
    = Some (("[" ++ ex.level_name level ++ "] : ")
            ++ String.concat "," (join_element number_toString <$> args))%string
  ∧ ∀ i m,
      _messages s' !! i = Some m →
      (∃ opacity, calls !! (1 + 2 * i)
                  = Some (set_fillStyle 255 255 255 opacity))
      ∧ calls !! (2 + 2 * i) = Some (fillText m 200 (10 + 10 * i)).
Proof.
  unfold ScreenAppender_log.
  cbn [_messages canvas_width canvas_height].
  split; [done|].
  split; [cbn [length]; rewrite draw_messages_length; cbn [length]; lia|].
  split; [done|].
  intros i m Hi.
  destruct (draw_messages_lookup _ 10 1%float i m Hi) as [Hstyle Htext].
  split.
  - eexists. exact Hstyle.
  - replace (2 + 2 * i) with (S (2 * i + 1)) by lia. exact Htext.
Qed.

(** X8. Only the twenty newest lines can be seen: the line [i] is drawn with
    an opacity above 0 exactly when [i < 20].  Older lines are still
    stored and still drawn, at opacity 0 or just below it. *)
Theorem screen_shows_twenty_lines (s : ScreenAppenderState)
    (level : ex.LogLevel) (args : list ex.JsValue) (i : nat) (m : string) :
  (ScreenAppender_log number_toString s level args).1.(_messages) !! i = Some m →
  ∃ opacity : float,
    (ScreenAppender_log number_toString s level args).2 !! (1 + 2 * i)
    = Some (set_fillStyle 255 255 255 opacity)
    ∧ (PrimFloat.ltb 0 opacity = true ↔ i < 20).
Proof.
  simpl. intros Hi.
  destruct (draw_messages_lookup _ 10 1%float i m Hi) as [Hstyle _].
  eexists. split; [exact Hstyle|]. apply opacity_positive_iff.
Qed.

End ScreenAppenderFacts.

Lemma screen_shows_twenty_lines_witness :
  ∃ opacity : float,
    (ScreenAppender_log (fun _ => "0") (mkScreen 800 600 []) ex.Info
       [ex.JsStr "ready"]).2 !! 1
    = Some (set_fillStyle 255 255 255 opacity)
    ∧ (PrimFloat.ltb 0 opacity = true ↔ 0 < 20).
Proof.
  apply (screen_shows_twenty_lines (fun _ => "0") (mkScreen 800 600 []) ex.Info
           [ex.JsStr "ready"] 0 "[Info] : ready").
  reflexivity.
Defined.

(** ** More on adding and removing *)

Lemma cm_set_idem (k : ComponentType) (v : cref) (m : ComponentMap) :
  cm_set k v (cm_set k v m) = cm_set k v m.
Proof.
  induction m as [|[k' v'] m IH]; simpl.
  - by rewrite String.eqb_refl.
  - destruct (String.eqb k k') eqn:Hk; simpl.
    + by rewrite String.eqb_refl.
    + by rewrite Hk, IH.
Qed.

Lemma cm_set_keys (k : ComponentType) (v : cref) (m : ComponentMap) :
  (cm_set k v m).*1 = if bool_decide (k ∈ m.*1) then m.*1 else m.*1 ++ [k].
Proof.
  induction m as [|[k' v'] m IH].
  - case_bool_decide as Hin; [|done]. by apply elem_of_nil in Hin.
  - cbn [cm_set]. destruct (String.eqb_spec k k') as [->|Hk].
    + clear IH. rewrite bool_decide_eq_true_2; [done|]. apply list_elem_of_here.
    + rewrite fmap_cons, IH. cbn [fst]. clear IH.
      destruct (decide (k ∈ m.*1)) as [Hin|Hin].
      * rewrite !bool_decide_eq_true_2; [done| |done].
        rewrite fmap_cons. by apply list_elem_of_further.
      * rewrite !bool_decide_eq_false_2; [done| |done].
        rewrite fmap_cons. intros Hin'.
        apply elem_of_cons in Hin' as [?|?]; done.
Qed.

Lemma cm_get_None_keys (k : ComponentType) (m : ComponentMap) :
  cm_get k m = None ↔ k ∉ m.*1.
Proof.
  split.
  - intros Hnone Hin. apply cm_get_is_Some in Hin as [c Hc]. congruence.
  - intros Hnot. destruct (cm_get k m) as [c|] eqn:Hget; [|done].
    exfalso. apply Hnot. apply cm_get_Some_elem in Hget.
    by apply (list_elem_of_fmap_2 fst) in Hget.
Qed.

(** X9. For a component whose type is not ["__proto__"],
    [addComponent(c)] touches the owner of [c] and the entry of the
    entity under the type of [c], and nothing else: the other entries of
    the entity, its id and its flag, every other entity, every other
    component and the id counter are as before. *)
Theorem addComponent_changes_one_entry (w : World) (e : eref) (c : cref)
    (E : Entity) (C : Component) :
  entities (store w) !! e = Some E →
  heap (store w) !! c = Some C →
  type C ≠ "__proto__" →
  ∃ (w' : World) (E' : Entity),
    addComponent e (AComponent c) w = (Return tt, w')
    ∧ entities (store w') !! e = Some E'
    ∧ cm_get (type C) (components E') = Some c
    ∧ (∀ k, k ≠ type C → cm_get k (components E') = cm_get k (components E))
    ∧ id E' = id E
    ∧ _isInitialized E' = _isInitialized E
    ∧ (∀ e', e' ≠ e → entities (store w') !! e' = entities (store w) !! e')
    ∧ heap (store w') !! c = Some (with_owner (Some e) C)
    ∧ (∀ c', c' ≠ c → heap (store w') !! c' = heap (store w) !! c')
    ∧ _ID (store w') = _ID (store w).
Proof.
  intros He Hc Hord.
  pose proof (addComponent_normal_run w e c E C He Hc Hord) as Hrun.
  cbv zeta in Hrun.
  eexists _, _. split; [exact Hrun|]. simpl.
  split; [by eapply lookup_insert_same|]. simpl.
  split; [apply cm_get_set_eq|].
  split; [intros k Hk; by apply cm_get_set_ne|].
  split; [done|]. split; [done|].
  split; [intros e' He'; by apply list_lookup_insert_ne|].
  split; [by eapply lookup_insert_same|].
  split; [intros c' Hc'; by apply list_lookup_insert_ne | done].
Qed.

Lemma addComponent_changes_one_entry_witness :
  ∃ (w' : World) (E' : Entity),
    addComponent 1 (AComponent 1) two_entities_world = (Return tt, w')
    ∧ entities (store w') !! 1 = Some E'
    ∧ cm_get "A" (components E') = Some 1
    ∧ (∀ k, k ≠ "A" → cm_get k (components E') = cm_get k [])
    ∧ id E' = 1
    ∧ _isInitialized E' = false
    ∧ (∀ e', e' ≠ 1 →
             entities (store w') !! e' = entities (store two_entities_world) !! e')
    ∧ heap (store w') !! 1 = Some (mkComponent "A" (Some 1) false false)
    ∧ (∀ c', c' ≠ 1 →
             heap (store w') !! c' = heap (store two_entities_world) !! c')
    ∧ _ID (store w') = 2.
Proof.
  apply (addComponent_changes_one_entry two_entities_world 1 1
           (mkEntity 1 [] false) (mkComponent "A" None false false));
    [reflexivity | reflexivity | simpl; discriminate].
Defined.

(** X10. For a type [t] that the map does not inherit: after
    [removeComponent(t)] the entity does not have [t], whether it had it
    before or not; its other entries and every other entity are as
    before. *)
Theorem removeComponent_leaves_type_absent (w : World) (e : eref) (E : Entity)
    (t : ComponentType) :
  entities (store w) !! e = Some E →
  (∀ c, cm_get t (components E) = Some c → is_Some (heap (store w) !! c)) →
  inherits (store w) e t = false →
  ∃ (w' : World) (E' : Entity),
    removeComponent e (AType t) w = (Return tt, w')
    ∧ entities (store w') !! e = Some E'
    ∧ has e t w' = (Return false, w')
    ∧ (∀ k, k ≠ t → cm_get k (components E') = cm_get k (components E))
    ∧ id E' = id E
    ∧ _isInitialized E' = _isInitialized E
    ∧ (∀ e', e' ≠ e → entities (store w') !! e' = entities (store w) !! e').
Proof.
  intros He Hvalid Hinh.
  destruct (cm_get t (components E)) as [c|] eqn:Hget.
  - destruct (Hvalid c eq_refl) as [C Hc].
    pose proof (removeComponent_at_present w e t E c C He Hget Hc) as Hrun.
    cbv zeta in Hrun.
    eexists _, _. split; [exact Hrun|]. simpl.
    split; [by eapply lookup_insert_same|].
    split.
    { eapply has_absent; simpl.
      - by eapply lookup_insert_same.
      - simpl. apply cm_get_delete_eq.
      - by rewrite <- Hinh. }
    simpl. split; [intros k Hk; by apply cm_get_delete_ne|].
    split; [done|]. split; [done|].
    intros e' He'. by apply list_lookup_insert_ne.
  - exists w, E. split; [by apply (removeComponent_at_absent w e t E)|].
    split; [done|].
    split; [by apply (has_absent w e t E)|].
    by repeat split.
Qed.

Lemma removeComponent_leaves_type_absent_witness :
  ∃ (w' : World) (E' : Entity),
    removeComponent 0 (AType "A") two_entities_world = (Return tt, w')
    ∧ entities (store w') !! 0 = Some E'
    ∧ has 0 "A" w' = (Return false, w')
    ∧ (∀ k, k ≠ "A" → cm_get k (components E') = cm_get k [("A", 0)])
    ∧ id E' = 0
    ∧ _isInitialized E' = false
    ∧ (∀ e', e' ≠ 0 →
             entities (store w') !! e' = entities (store two_entities_world) !! e').
Proof.
  apply (removeComponent_leaves_type_absent two_entities_world 0
           (mkEntity 0 [("A", 0)] false) "A").
  - reflexivity.
  - intros c Hc. injection Hc as <-. by eexists.
  - reflexivity.
Defined.

(** X11. The order of a removal: the owner is cleared, then [onRemove] is
    called if the component has the hook, then Removed is published, and
    only then is the entry deleted.  The hook and the subscriber both
    see the component without owner and still in the map. *)
Theorem removeComponent_publishes_before_delete (w : World) (e : eref)
    (E : Entity) (t : ComponentType) (c : cref) (C : Component) :
  entities (store w) !! e = Some E →
  cm_get t (components E) = Some c →
  heap (store w) !! c = Some C →
  ∃ (seen : Store) (w' : World) (E' : Entity),
    removeComponent e (AType t) w = (Return tt, w')
    ∧ trace w'
      = (trace w ++ (if onRemove C then [OnRemoveCall c e seen] else []))
        ++ [Notify e (RemovedComponent c e) seen]
    ∧ heap seen !! c = Some (with_owner None C)
    ∧ entities seen !! e = Some E
    ∧ entities (store w') !! e = Some E'
    ∧ cm_get t (components E') = None
    ∧ heap (store w') = heap seen.
Proof.
  intros He Hget Hc.
  pose proof (removeComponent_at_present w e t E c C He Hget Hc) as Hrun.
  cbv zeta in Hrun.
  eexists _, _, _. split; [exact Hrun|]. simpl.
  split; [done|].
  split; [by eapply lookup_insert_same|].
  split; [done|].
  split; [by eapply lookup_insert_same|].
  simpl. split; [apply cm_get_delete_eq | done].
Qed.

Lemma removeComponent_publishes_before_delete_witness :
  ∃ (seen : Store) (w' : World) (E' : Entity),
    removeComponent 0 (AType "A") holds_A_world = (Return tt, w')
    ∧ trace w'
      = (trace holds_A_world ++ [OnRemoveCall 0 0 seen])
        ++ [Notify 0 (RemovedComponent 0 0) seen]
    ∧ heap seen !! 0 = Some (mkComponent "A" None true true)
    ∧ entities seen !! 0 = Some (mkEntity 0 [("A", 0)] false)
    ∧ entities (store w') !! 0 = Some E'
    ∧ cm_get "A" (components E') = None
    ∧ heap (store w') = heap seen.
Proof.
  apply (removeComponent_publishes_before_delete holds_A_world 0
           (mkEntity 0 [("A", 0)] false) "A" 0
           (mkComponent "A" (Some 0) true true)); reflexivity.
Defined.

(** ** Adding twice, replacing, sharing *)

(** X12. Adding a component that the entity holds already is not guarded:
    for a component whose type is not ["__proto__"], the second
    [addComponent(c)] leaves the store exactly as it is, and still
    publishes Added and calls [onAdd] once more. *)
Theorem addComponent_again_renotifies (w : World) (e : eref) (c : cref)
    (E : Entity) (C : Component) :
  entities (store w) !! e = Some E →
  heap (store w) !! c = Some C →
  type C ≠ "__proto__" →
  ∃ w1 w2 : World,
    addComponent e (AComponent c) w = (Return tt, w1)
    ∧ addComponent e (AComponent c) w1 = (Return tt, w2)
    ∧ store w2 = store w1
    ∧ trace w2
      = (trace w1 ++ [Notify e (AddedComponent c e) (store w1)])
        ++ (if onAdd C then [OnAddCall c e (store w1)] else []).
Proof.
  intros He Hc Hord.
  pose proof (addComponent_normal_run w e c E C He Hc Hord) as Hrun1.
  cbv zeta in Hrun1.
  eexists _, _. split; [exact Hrun1|].
  split.
  { simpl. apply addComponent_normal_run; simpl.
    - by eapply lookup_insert_same.
    - by eapply lookup_insert_same.
    - done. }
  simpl.
  unfold with_entities, with_heap, with_components, with_owner. simpl.
  rewrite !list_insert_insert_eq, cm_set_idem. done.
Qed.

Lemma addComponent_again_renotifies_witness :
  ∃ w1 w2 : World,
    addComponent 0 (AComponent 0) two_A_world = (Return tt, w1)
    ∧ addComponent 0 (AComponent 0) w1 = (Return tt, w2)
    ∧ store w2 = store w1
    ∧ trace w2
      = (trace w1 ++ [Notify 0 (AddedComponent 0 0) (store w1)])
        ++ [OnAddCall 0 0 (store w1)].
Proof.
  apply (addComponent_again_renotifies two_A_world 0 0
           (mkEntity 0 [] false) (mkComponent "A" None true true));
    [reflexivity | reflexivity | simpl; discriminate].
Defined.

(** X13. A component that is replaced is not told.  After [c1] and then [c2],
    of the same type, which is not ["__proto__"], were added, the map
    holds [c2], but [c1] still names the entity as its owner, and between
    the two Added messages and the [onAdd] calls no [onRemove] call was
    made. *)
Theorem replaced_component_keeps_owner (w : World) (e : eref) (c1 c2 : cref)
    (E : Entity) (C1 C2 : Component) :
  entities (store w) !! e = Some E →
  heap (store w) !! c1 = Some C1 →
  heap (store w) !! c2 = Some C2 →
  c1 ≠ c2 →
  type C1 = type C2 →
  type C1 ≠ "__proto__" →
  ∃ (w1 w2 : World) (E2 : Entity) (s1 s2 s3 s4 : Store),
    addComponent e (AComponent c1) w = (Return tt, w1)
    ∧ addComponent e (AComponent c2) w1 = (Return tt, w2)
    ∧ entities (store w2) !! e = Some E2
    ∧ cm_get (type C1) (components E2) = Some c2
    ∧ heap (store w2) !! c1 = Some (with_owner (Some e) C1)
    ∧ trace w2
      = (((trace w ++ [Notify e (AddedComponent c1 e) s1])
          ++ (if onAdd C1 then [OnAddCall c1 e s2] else []))
         ++ [Notify e (AddedComponent c2 e) s3])
        ++ (if onAdd C2 then [OnAddCall c2 e s4] else []).
Proof.
  intros He Hc1 Hc2 Hne Hty Hord.
  pose proof (addComponent_normal_run w e c1 E C1 He Hc1 Hord) as Hrun1.
  cbv zeta in Hrun1.
  eexists _, _, _, _, _, _, _. split; [exact Hrun1|].
  split.
  { simpl. apply addComponent_normal_run; simpl.
    - by eapply lookup_insert_same.
    - rewrite list_lookup_insert_ne; [exact Hc2 | done].
    - by rewrite <- Hty. }
  simpl. split; [by eapply lookup_insert_same, lookup_insert_same|].
  simpl. split; [rewrite Hty; apply cm_get_set_eq|].
  split; [|done].
  rewrite list_lookup_insert_ne; [|done]. by eapply lookup_insert_same.
Qed.

Lemma replaced_component_keeps_owner_witness :
  ∃ (w1 w2 : World) (E2 : Entity) (s1 s2 s3 s4 : Store),
    addComponent 0 (AComponent 0) two_A_world = (Return tt, w1)
    ∧ addComponent 0 (AComponent 1) w1 = (Return tt, w2)
    ∧ entities (store w2) !! 0 = Some E2
    ∧ cm_get "A" (components E2) = Some 1
    ∧ heap (store w2) !! 0 = Some (mkComponent "A" (Some 0) true true)
    ∧ trace w2
      = (((trace two_A_world ++ [Notify 0 (AddedComponent 0 0) s1])
          ++ [OnAddCall 0 0 s2])
         ++ [Notify 0 (AddedComponent 1 0) s3])
        ++ [].
Proof.
  apply (replaced_component_keeps_owner two_A_world 0 0 1
           (mkEntity 0 [] false)
           (mkComponent "A" None true true)
           (mkComponent "A" None false false)); try reflexivity.
  - lia.
  - simpl. discriminate.
Defined.

(** X14. A component can be on two entities.  [addComponent] does not take it
    off the entity that holds it: for a component whose type is not
    ["__proto__"], after [e1.addComponent(c)] and [e2.addComponent(c)]
    both maps hold [c], its owner is [e2], and the channel of [e1] has
    received its Added message and nothing else. *)
Theorem addComponent_does_not_detach (w : World) (e1 e2 : eref) (c : cref)
    (E1 E2 : Entity) (C : Component) :
  e1 ≠ e2 →
  entities (store w) !! e1 = Some E1 →
  entities (store w) !! e2 = Some E2 →
  heap (store w) !! c = Some C →
  type C ≠ "__proto__" →
  ∃ w1 w2 : World,
    addComponent e1 (AComponent c) w = (Return tt, w1)
    ∧ addComponent e2 (AComponent c) w1 = (Return tt, w2)
    ∧ has e1 (type C) w2 = (Return true, w2)
    ∧ has e2 (type C) w2 = (Return true, w2)
    ∧ heap (store w2) !! c = Some (with_owner (Some e2) C)
    ∧ published e1 (trace w2)
      = published e1 (trace w) ++ [AddedComponent c e1].
Proof.
  intros Hne He1 He2 Hc Hord.
  pose proof (addComponent_normal_run w e1 c E1 C He1 Hc Hord) as Hrun1.
  cbv zeta in Hrun1.
  eexists _, _. split; [exact Hrun1|].
  split.
  { simpl. apply addComponent_normal_run; simpl.
    - rewrite list_lookup_insert_ne; [exact He2 | done].
    - by eapply lookup_insert_same.
    - done. }
  simpl. split.
  { eapply has_own; simpl.
    - rewrite list_lookup_insert_ne; [|done].
      by eapply lookup_insert_same.
    - simpl. apply cm_get_set_eq. }
  split.
  { eapply has_own; simpl.
    - eapply lookup_insert_same.
      rewrite list_lookup_insert_ne; [exact He2 | done].
    - simpl. apply cm_get_set_eq. }
  split.
  { erewrite lookup_insert_same; [done|]. by eapply lookup_insert_same. }
  rewrite !published_app, !published_OnAdd_opt, published_Notify_self.
  simpl. assert (Nat.eqb e1 e2 = false) as -> by by apply Nat.eqb_neq.
  by rewrite !app_nil_r.
Qed.

Lemma addComponent_does_not_detach_witness :
  ∃ w1 w2 : World,
    addComponent 0 (AComponent 1) two_entities_world = (Return tt, w1)
    ∧ addComponent 1 (AComponent 1) w1 = (Return tt, w2)
    ∧ has 0 "A" w2 = (Return true, w2)
    ∧ has 1 "A" w2 = (Return true, w2)
    ∧ heap (store w2) !! 1 = Some (mkComponent "A" (Some 1) false false)
    ∧ published 0 (trace w2)
      = published 0 (trace two_entities_world) ++ [AddedComponent 1 0].
Proof.
  apply (addComponent_does_not_detach two_entities_world 0 1 1
           (mkEntity 0 [("A", 0)] false) (mkEntity 1 [] false)
           (mkComponent "A" None false false)); try reflexivity.
  - lia.
  - simpl. discriminate.
Defined.

(** X15. [removeComponent] clears the owner whoever the owner is.  When two
    entities hold [c], under a type that the map of [e1] does not
    inherit, and [c] names [e2] as its owner, removing it from [e1]
    leaves [c] on [e2] and without owner. *)
Theorem removeComponent_clears_foreign_owner (w : World) (e1 e2 : eref)
    (c : cref) (E1 E2 : Entity) (C : Component) :
  e1 ≠ e2 →
  entities (store w) !! e1 = Some E1 →
  entities (store w) !! e2 = Some E2 →
  heap (store w) !! c = Some C →
  cm_get (type C) (components E1) = Some c →
  cm_get (type C) (components E2) = Some c →
  owner C = Some e2 →
  inherits (store w) e1 (type C) = false →
  ∃ (w' : World) (C' : Component),
    removeComponent e1 (AType (type C)) w = (Return tt, w')
    ∧ has e1 (type C) w' = (Return false, w')
    ∧ has e2 (type C) w' = (Return true, w')
    ∧ heap (store w') !! c = Some C'
    ∧ owner C' = None
    ∧ published e2 (trace w') = published e2 (trace w).
Proof.
  intros Hne He1 He2 Hc Hg1 Hg2 Hown Hinh.
  pose proof (removeComponent_at_present w e1 (type C) E1 c C He1 Hg1 Hc)
    as Hrun.
  cbv zeta in Hrun.
  eexists _, _. split; [exact Hrun|]. simpl.
  split.
  { eapply has_absent; simpl.
    - by eapply lookup_insert_same.
    - simpl. apply cm_get_delete_eq.
    - by rewrite <- Hinh. }
  split.
  { eapply has_own; simpl.
    - rewrite list_lookup_insert_ne; [exact He2 | done].
    - exact Hg2. }
  split; [by eapply lookup_insert_same|].
  split; [done|].
  rewrite !published_app, published_OnRemove_opt. simpl.
  assert (Nat.eqb e2 e1 = false) as ->.
  { apply Nat.eqb_neq. congruence. }
  by rewrite !app_nil_r.
Qed.

Lemma removeComponent_clears_foreign_owner_witness :
  ∃ (w' : World) (C' : Component),
    removeComponent 0 (AType "A")
      (exec (addComponent 1 (AComponent 0)) two_entities_world)
    = (Return tt, w')
    ∧ has 0 "A" w' = (Return false, w')
    ∧ has 1 "A" w' = (Return true, w')
    ∧ heap (store w') !! 0 = Some C'
    ∧ owner C' = None
    ∧ published 1 (trace w')
      = published 1
          (trace (exec (addComponent 1 (AComponent 0)) two_entities_world)).
Proof.
  apply (removeComponent_clears_foreign_owner
           (exec (addComponent 1 (AComponent 0)) two_entities_world) 0 1 0
           (mkEntity 0 [("A", 0)] false) (mkEntity 1 [("A", 0)] false)
           (mkComponent "A" (Some 1) true true)); try reflexivity.
  lia.
Defined.

(** ** [types] and [has] *)

Lemma insert_index_length (n : N) (k : string) (l : list (N * string)) :
  length (insert_index n k l) = S (length l).
Proof.
  induction l as [|[n' k'] l IH]; simpl; [done|].
  destruct (n <? n')%N; simpl; [done|]. by rewrite IH.
Qed.

Lemma own_keys_length (m : ComponentMap) :
  length (own_keys m) = length m.
Proof.
  unfold own_keys. rewrite length_app, length_fmap.
  induction m as [|[k v] m IH]; [done|].
  cbn [fmap list_fmap fst index_keys named_keys].
  destruct (array_index k); cbn [length].
  - rewrite insert_index_length. change (list_fmap _ _ fst m) with (m.*1). lia.
  - change (list_fmap _ _ fst m) with (m.*1). lia.
Qed.

Lemma named_keys_all (ks : list string) :
  Forall (fun k => array_index k = None) ks →
  index_keys ks = [] ∧ named_keys ks = ks.
Proof.
  induction 1 as [|k ks Hk _ [IHi IHn]]; simpl; [done|].
  by rewrite Hk, IHi, IHn.
Qed.

Lemma own_keys_no_index (m : ComponentMap) :
  Forall (fun k => array_index k = None) m.*1 → own_keys m = m.*1.
Proof.
  intros Hall. unfold own_keys.
  destruct (named_keys_all _ Hall) as [Hi Hn].
  exact (eq_trans (f_equal (fun l => l.*2 ++ named_keys m.*1) Hi) Hn).
Qed.

(** X16. [types] and [has] agree and do not change anything: [types] returns
    as many types as the map has entries, [has(t)] is true for every type
    in that array, and for a name that the map does not inherit [has(t)]
    is true exactly for the types in that array. *)
Theorem has_iff_in_types (w : World) (e : eref) (E : Entity) :
  entities (store w) !! e = Some E →
  ∃ ts : list ComponentType,
    types e w = (Return ts, w)
    ∧ length ts = length (components E)
    ∧ (∀ t, t ∈ ts → has e t w = (Return true, w))
    ∧ (∀ t, inherits (store w) e t = false →
            has e t w = (Return (bool_decide (t ∈ ts)), w)).
Proof.
  intros He. exists (own_keys (components E)).
  split; [unfold types, bind, readEntity, ret; by rewrite He|].
  split; [apply own_keys_length|].
  split.
  - intros t Hin. apply own_keys_elem, cm_get_is_Some in Hin as [c Hget].
    by apply (has_own w e t E c).
  - intros t Hinh.
    destruct (cm_get t (components E)) as [c|] eqn:Hget.
    + rewrite bool_decide_eq_true_2; [by apply (has_own w e t E c)|].
      apply own_keys_elem. apply cm_get_Some_elem in Hget.
      by apply (list_elem_of_fmap_2 fst) in Hget.
    + rewrite bool_decide_eq_false_2; [by apply (has_absent w e t E)|].
      rewrite own_keys_elem. by apply cm_get_None_keys.
Qed.

Lemma has_iff_in_types_witness :
  ∃ ts : list ComponentType,
    types 0 A_B_world = (Return ts, A_B_world)
    ∧ length ts = 2
    ∧ (∀ t, t ∈ ts → has 0 t A_B_world = (Return true, A_B_world))
    ∧ (∀ t, inherits (store A_B_world) 0 t = false →
            has 0 t A_B_world = (Return (bool_decide (t ∈ ts)), A_B_world)).
Proof.
  apply (has_iff_in_types A_B_world 0 (mkEntity 0 [("A", 0); ("B", 1)] false)).
  reflexivity.
Defined.

(** X17. For types that are not array indices, [types] is the order of first
    addition: it lists the keys as they were inserted, and
    [addComponent(c)], for a type other than ["__proto__"], puts a new
    type at the end and leaves the array as it is when the type is there
    already. *)
Theorem types_in_insertion_order (w : World) (e : eref) (c : cref)
    (E : Entity) (C : Component) :
  entities (store w) !! e = Some E →
  heap (store w) !! c = Some C →
  Forall (fun k => array_index k = None) (components E).*1 →
  array_index (type C) = None →
  type C ≠ "__proto__" →
  ∃ w1 : World,
    types e w = (Return (components E).*1, w)
    ∧ addComponent e (AComponent c) w = (Return tt, w1)
    ∧ types e w1
      = (Return (if bool_decide (type C ∈ (components E).*1)
                 then (components E).*1
                 else (components E).*1 ++ [type C]), w1).
Proof.
  intros He Hc Hall HC Hord.
  pose proof (addComponent_normal_run w e c E C He Hc Hord) as Hrun.
  cbv zeta in Hrun.
  eexists. split.
  { unfold types, bind, readEntity, ret. rewrite He.
    by rewrite (own_keys_no_index _ Hall). }
  split; [exact Hrun|].
  unfold types, bind, readEntity, ret. simpl.
  erewrite lookup_insert_same; [|exact He]. simpl.
  rewrite own_keys_no_index; [by rewrite cm_set_keys|].
  rewrite cm_set_keys.
  case_bool_decide; [done|]. apply Forall_app. split; [done|].
  by constructor.
Qed.

Lemma types_in_insertion_order_witness :
  ∃ w1 : World,
    types 0 holds_A_world = (Return ["A"], holds_A_world)
    ∧ addComponent 0 (AComponent 1) holds_A_world = (Return tt, w1)
    ∧ types 0 w1 = (Return ["A"], w1).
Proof.
  apply (types_in_insertion_order holds_A_world 0 1
           (mkEntity 0 [("A", 0)] false) (mkComponent "A" None false false)).
  - reflexivity.
  - reflexivity.
  - repeat constructor.
  - reflexivity.
  - simpl. discriminate.
Defined.

(** Types that are array indices do not keep the order of addition:
    ["1"] was added before ["0"], and [types] lists ["0"] first. *)
Example types_with_index_keys :
  types 0 index_keys_world = (Return ["0"; "1"], index_keys_world)
  ∧ components <$> entities (store index_keys_world) !! 0
    = Some [("1", 0); ("0", 1)].
Proof. split; reflexivity. Qed.

(** ** What holds in every world built through the interface *)

Lemma insert_owner_keeps_types (h : list Component) (c : cref)
    (o : option eref) (C : Component) :
  h !! c = Some C →
  ∀ c0 C0, h !! c0 = Some C0 →
           ∃ C', <[c := with_owner o C]> h !! c0 = Some C' ∧ type C' = type C0.
Proof.
  intros Hc c0 C0 Hc0. destruct (decide (c = c0)) as [<-|Hne].
  - exists (with_owner o C). split; [by eapply lookup_insert_same|].
    simpl. congruence.
  - exists C0. by rewrite list_lookup_insert_ne.
Qed.

(** The ways [addComponent] of a component can go: it stops before it
    writes; or it makes no entry, writing at most the owner of the
    component and, for the type ["__proto__"], the prototype of the map;
    or it makes the entry and publishes Added. *)
Lemma addComponent_normal_cases (w : World) (this : eref) (c : cref) :
  (addComponent_normal this c w).2 = w
  ∨ (∃ C hooks,
       heap (store w) !! c = Some C
       ∧ entities (store (addComponent_normal this c w).2) = entities (store w)
       ∧ heap (store (addComponent_normal this c w).2)
         = <[c := with_owner (Some this) C]> (heap (store w))
       ∧ (prototypes (store (addComponent_normal this c w).2)
          = prototypes (store w)
          ∨ (prototypes (store (addComponent_normal this c w).2)
             = (this, c) :: prototypes (store w)
             ∧ type C = "__proto__"))
       ∧ trace (addComponent_normal this c w).2 = trace w ++ hooks
       ∧ ∀ e, published e hooks = [])
  ∨ (∃ C E,
       heap (store w) !! c = Some C
       ∧ entities (store w) !! this = Some E
       ∧ let s1 := with_heap (<[c := with_owner (Some this) C]> (heap (store w)))
                     (store w) in
         let s2 := with_entities
                     (<[this := with_components
                                  (cm_set (type C) c (components E)) E]>
                        (entities s1)) s1 in
         addComponent_normal this c w
         = (Return tt,
            {| store := s2;
               trace := (trace w ++ [Notify this (AddedComponent c this) s1])
                        ++ (if onAdd C then [OnAddCall c this s2] else []) |})).
Proof.
  destruct (heap (store w) !! c) as [C|] eqn:Hc.
  - destruct (entities (store w) !! this) as [E|] eqn:He.
    + destruct (cm_get (type C) (components E)) as [c0|] eqn:Hget.
      { right. right. exists C, E. split; [done|]. split; [done|].
        apply addComponent_normal_trap; [done|done|]. left.
        rewrite Hget. by eexists. }
      destruct (String.eqb_spec (type C) "__proto__") as [Hty|Hty].
      * right. left. exists C, (if onAdd C
                                then [OnAddCall c this
                                        (with_prototypes
                                           ((this, c) :: prototypes (store w))
                                           (with_heap
                                              (<[c := with_owner (Some this) C]>
                                                 (heap (store w))) (store w)))]
                                else []).
        split; [done|].
        rewrite Hty in Hget.
        rewrite (addComponent_normal_proto w this c E C He Hc Hty Hget).
        simpl. do 2 (split; [done|]). split; [by right|]. split; [done|].
        intros e. by destruct (onAdd C).
      * right. right. exists C, E. split; [done|]. split; [done|].
        by apply addComponent_normal_run.
    + right. left. exists C, []. split; [done|].
      assert (Hrun : addComponent_normal this c w
                     = (Throw DanglingReference,
                        {| store := with_heap
                                      (<[c := with_owner (Some this) C]>
                                         (heap (store w))) (store w);
                           trace := trace w |})).
      { unfold addComponent_normal, setProperty, bind, readComponent,
          modifyComponent, readEntity.
        rewrite Hc. simpl. rewrite (lookup_insert_same _ _ _ _ Hc). simpl.
        by rewrite He. }
      rewrite Hrun. simpl. rewrite app_nil_r.
      do 2 (split; [done|]). split; [by left|]. by split.
  - left. unfold addComponent_normal, bind, modifyComponent. by rewrite Hc.
Qed.

(** What a key resolves to when it resolves to a component. *)
Lemma resolve_component (m : ComponentMap) (proto : option cref) (k : string)
    (c : cref) :
  resolve m proto k = Return (Some (IsComponent c)) →
  cm_get k m = Some c ∨ (k = "__proto__" ∧ proto = Some c).
Proof.
  unfold resolve. destruct (cm_get k m) as [c0|]; [intros [= ->]; by left|].
  destruct (String.eqb_spec k "__proto__") as [->|Hk].
  - destruct proto as [p|]; [|done]. intros [= ->]. by right.
  - destruct (match proto with
              | Some _ => is_name component_fields k
              | None => false
              end); [done|].
    by destruct (is_name Object_prototype_names k).
Qed.

(** The ways [removeComponent] of a key can go: it changes nothing; or
    the key resolves to a component, whose owner is cleared and for which
    Removed is published; or it resolves to an inherited object, for
    which Removed is published.  In the last two cases the key is deleted
    from the map. *)
Lemma removeComponent_at_cases (w : World) (this : eref) (key : ComponentType) :
  (removeComponent_at this key w).2 = w
  ∨ (∃ E c C,
       entities (store w) !! this = Some E
       ∧ resolve (components E) (map_prototype (store w) this) key
         = Return (Some (IsComponent c))
       ∧ heap (store w) !! c = Some C
       ∧ let s1 := with_heap (<[c := with_owner None C]> (heap (store w)))
                     (store w) in
         let s2 := with_entities
                     (<[this := with_components
                                  (cm_delete key (components E)) E]>
                        (entities s1)) s1 in
         removeComponent_at this key w
         = (Return tt,
            {| store := s2;
               trace := (trace w
                         ++ (if onRemove C then [OnRemoveCall c this s1] else []))
                        ++ [Notify this (RemovedComponent c this) s1] |}))
  ∨ (∃ E i,
       entities (store w) !! this = Some E
       ∧ removeComponent_at this key w
         = (Return tt,
            {| store := with_entities
                          (<[this := with_components
                                       (cm_delete key (components E)) E]>
                             (entities (store w))) (store w);
               trace := trace w
                        ++ [SetOwner i;
                            Notify this (RemovedComponent_of i this)
                              (store w)] |})).
Proof.
  destruct (entities (store w) !! this) as [E|] eqn:He.
  - destruct (resolve (components E) (map_prototype (store w) this) key)
      as [[[c|i]|]|x] eqn:Hres.
    + destruct (heap (store w) !! c) as [C|] eqn:Hc.
      * right. left. exists E, c, C. do 3 (split; [done|]).
        by apply removeComponent_at_component.
      * left. unfold removeComponent_at, getProperty.
        unfold bind at 1. unfold bind at 1. unfold readEntity. rewrite He.
        cbv beta iota zeta. rewrite Hres.
        unfold bind, modifyComponent. by rewrite Hc.
    + right. right. exists E, i. split; [done|].
      by apply removeComponent_at_inherited.
    + left. unfold removeComponent_at, getProperty.
      unfold bind at 1. unfold bind at 1. unfold readEntity. rewrite He.
      cbv beta iota zeta. by rewrite Hres.
    + left. unfold removeComponent_at, getProperty.
      unfold bind at 1. unfold bind at 1. unfold readEntity. rewrite He.
      cbv beta iota zeta. by rewrite Hres.
  - left. unfold removeComponent_at, getProperty, bind, readEntity.
    by rewrite He.
Qed.

Section PreservesByOperation.
Context (P : World -> Prop).
Context
  (P_add : forall this c, preserves P (addComponent_normal this c))
  (P_remove : forall this key, preserves P (removeComponent_at this key))
  (P_alloc : forall v, preserves P (allocComponent v))
  (P_new : preserves P new_Entity)
  (P_initialize : forall e engine, preserves P (_initialize e engine))
  (P_preupdate : forall e engine delta, preserves P (_preupdate e engine delta))
  (P_postupdate : forall e engine delta, preserves P (_postupdate e engine delta)).

Lemma kept_by_Component_clone (c : cref) : preserves P (Component_clone c).
Proof.
  unfold Component_clone.
  apply preserves_bind; [apply preserves_readComponent | intros v].
  apply P_alloc.
Qed.

Lemma kept_by_addComponent (this : eref) (component : ComponentOrEntity) :
  preserves P (addComponent this component).
Proof.
  destruct component as [c|template]; simpl; [apply P_add|].
  apply preserves_bind; [apply preserves_readEntity | intros t].
  apply preserves_bind; [|intros _; apply preserves_inherited_keys].
  apply preserves_forIn. intros k. unfold prefab_body.
  apply preserves_bind; [apply preserves_readEntity | intros t'].
  destruct (cm_get k (components t')); [|apply preserves_ret].
  apply preserves_bind; [apply kept_by_Component_clone | intros cl].
  apply P_add.
Qed.

Lemma kept_by_clone (this : eref) : preserves P (clone this).
Proof.
  unfold clone, types.
  apply preserves_bind; [apply P_new | intros newEntity].
  apply preserves_bind.
  { apply preserves_bind; [apply preserves_readEntity | intros e].
    apply preserves_ret. }
  intros ts.
  apply preserves_bind; [|intros _; apply preserves_ret].
  apply preserves_forIn. intros k. unfold clone_body.
  apply preserves_bind; [apply preserves_getProperty | intros p].
  destruct p as [[v|i]|]; [|apply preserves_throw..].
  apply preserves_bind; [apply kept_by_Component_clone | intros cl].
  apply kept_by_addComponent.
Qed.

Lemma kept_by_perform (o : Op) : preserves P (perform o).
Proof.
  destruct o; simpl.
  - apply preserves_bind; [apply P_new | intros _; apply preserves_ret].
  - apply preserves_bind; [apply P_alloc | intros _; apply preserves_ret].
  - apply kept_by_addComponent.
  - destruct componentOrType as [t|c]; simpl; [apply P_remove|].
    apply preserves_bind; [apply preserves_readComponent | intros v].
    apply P_remove.
  - apply preserves_bind; [|intros _; apply preserves_ret].
    unfold has.
    apply preserves_bind; [apply preserves_getProperty | intros p].
    apply preserves_ret.
  - apply preserves_bind; [|intros _; apply preserves_ret].
    unfold types.
    apply preserves_bind; [apply preserves_readEntity | intros e].
    apply preserves_ret.
  - apply preserves_bind; [apply kept_by_clone | intros _; apply preserves_ret].
  - apply P_initialize.
  - apply P_preupdate.
  - apply P_postupdate.
Qed.

Lemma kept_by_run (ops : list Op) (w : World) : P w -> P (run ops w).
Proof.
  revert w. induction ops as [|o ops IH]; intros w Hw; simpl; [done|].
  apply IH. by apply kept_by_perform.
Qed.

End PreservesByOperation.

(** *** Keys are types *)

Lemma typed_map_mono (h h' : list Component) (m : ComponentMap) :
  (∀ c C, h !! c = Some C → ∃ C', h' !! c = Some C' ∧ type C' = type C) →
  typed_map h m = true → typed_map h' m = true.
Proof.
  intros Hmono. unfold typed_map. rewrite !forallb_forall.
  intros Hty kc Hin. specialize (Hty kc Hin).
  destruct (h !! kc.2) as [C|] eqn:Hc; [|done].
  destruct (Hmono _ _ Hc) as (C' & -> & HtyC). by rewrite HtyC.
Qed.

Lemma typed_map_cm_set (h : list Component) (m : ComponentMap)
    (k : ComponentType) (v : cref) (C : Component) :
  h !! v = Some C → type C = k →
  typed_map h m = true → typed_map h (cm_set k v m) = true.
Proof.
  intros Hv HC. induction m as [|[k' v'] m IH]; simpl.
  - intros _. rewrite Hv, HC, String.eqb_refl. done.
  - intros Hty. apply andb_true_iff in Hty as [Hhd Htl].
    destruct (String.eqb k k'); simpl.
    + rewrite Hv, HC, String.eqb_refl. done.
    + by rewrite Hhd, IH.
Qed.

Lemma typed_map_cm_delete (h : list Component) (m : ComponentMap)
    (k : ComponentType) :
  typed_map h m = true → typed_map h (cm_delete k m) = true.
Proof.
  induction m as [|[k' v'] m IH]; simpl; [done|].
  intros Hty. apply andb_true_iff in Hty as [Hhd Htl].
  destruct (String.eqb k k'); simpl; [by apply IH|].
  by rewrite Hhd, IH.
Qed.

Lemma typed_ok_add (this : eref) (c : cref) :
  preserves typed_ok (addComponent_normal this c).
Proof.
  intros w Hw.
  destruct (addComponent_normal_cases w this c)
    as [->|[(C & hooks & Hc & Hents & Hheap & _)|(C & E & Hc & He & ->)]];
    [done|..].
  - intros e' E' HE'. rewrite Hents in HE'. rewrite Hheap.
    eapply typed_map_mono; [by apply insert_owner_keeps_types|]. by eapply Hw.
  - intros e' E' HE'. simpl in *.
    destruct (decide (this = e')) as [<-|Hne].
    + erewrite lookup_insert_same in HE'; [|exact He]. injection HE' as <-.
      simpl. eapply typed_map_cm_set.
      * by eapply lookup_insert_same.
      * done.
      * eapply typed_map_mono; [by apply insert_owner_keeps_types|].
        by eapply Hw.
    + rewrite list_lookup_insert_ne in HE'; [|done].
      eapply typed_map_mono; [by apply insert_owner_keeps_types|].
      by eapply Hw.
Qed.

Lemma typed_ok_remove (this : eref) (key : ComponentType) :
  preserves typed_ok (removeComponent_at this key).
Proof.
  intros w Hw.
  destruct (removeComponent_at_cases w this key)
    as [->|[(E & c & C & He & _ & Hc & ->)|(E & i & He & ->)]]; [done|..].
  - intros e' E' HE'. simpl in *.
    destruct (decide (this = e')) as [<-|Hne].
    + erewrite lookup_insert_same in HE'; [|exact He]. injection HE' as <-.
      simpl. apply typed_map_cm_delete.
      eapply typed_map_mono; [by apply insert_owner_keeps_types|].
      by eapply Hw.
    + rewrite list_lookup_insert_ne in HE'; [|done].
      eapply typed_map_mono; [by apply insert_owner_keeps_types|].
      by eapply Hw.
  - intros e' E' HE'. simpl in *.
    destruct (decide (this = e')) as [<-|Hne].
    + erewrite lookup_insert_same in HE'; [|exact He]. injection HE' as <-.
      simpl. apply typed_map_cm_delete. by eapply Hw.
    + rewrite list_lookup_insert_ne in HE'; [|done]. by eapply Hw.
Qed.

Lemma typed_ok_initialize (e : eref) (engine : Engine) :
  preserves typed_ok (_initialize e engine).
Proof.
  intros w Hw.
  destruct (entities (store w) !! e) as [E|] eqn:He.
  - rewrite (initialize_run w e E engine He). simpl.
    destruct (_isInitialized E); [done|].
    intros e' E' HE'. simpl in *.
    destruct (decide (e = e')) as [<-|Hne].
    + erewrite lookup_insert_same in HE'; [|exact He]. injection HE' as <-.
      simpl. by eapply Hw.
    + rewrite list_lookup_insert_ne in HE'; [by eapply Hw | done].
  - by rewrite (initialize_dangling w e engine He).
Qed.

Lemma typed_ok_run (ops : list Op) : typed_ok (run ops empty_world).
Proof.
  apply kept_by_run.
  - apply typed_ok_add.
  - apply typed_ok_remove.
  - intros v w Hw e E HE. simpl in *.
    eapply typed_map_mono; [|by eapply Hw].
    intros c C Hc. exists C. split; [by apply lookup_app_l_Some | done].
  - intros w Hw e E HE. simpl in *.
    apply lookup_app_Some in HE as [HE|[_ HE]]; [by eapply Hw|].
    destruct (e - length (entities (store w))) as [|n]; simpl in HE; [|done].
    by injection HE as <-.
  - apply typed_ok_initialize.
  - by intros e engine delta w Hw.
  - by intros e engine delta w Hw.
  - intros e E HE. by destruct e.
Qed.

(** X18. Every key of a component map is the type of the component stored
    under it, in every world that calls on the interface build from
    nothing: what [components[t]] holds has the type [t]. *)
Theorem stored_component_has_the_type_of_its_key (ops : list Op) (e : eref)
    (E : Entity) (t : ComponentType) (c : cref) :
  entities (store (run ops empty_world)) !! e = Some E →
  cm_get t (components E) = Some c →
  ∃ C : Component,
    heap (store (run ops empty_world)) !! c = Some C ∧ type C = t.
Proof.
  intros He Hget.
  eapply typed_map_lookup; [|exact Hget]. by eapply typed_ok_run.
Qed.

Lemma stored_component_has_the_type_of_its_key_witness :
  ∃ C : Component,
    heap (store (run [NewEntity;
                      NewComponent (mkComponent "A" None false false);
                      AddComponent 0 (AComponent 0)] empty_world)) !! 0
    = Some C
    ∧ type C = "A".
Proof.
  apply (stored_component_has_the_type_of_its_key
           [NewEntity; NewComponent (mkComponent "A" None false false);
            AddComponent 0 (AComponent 0)]
           0 (mkEntity 0 [("A", 0)] false) "A" 0); reflexivity.
Defined.

(** *** The channel tells the truth *)

Lemma snoc_decompose {A} (l pre post : list A) (x m : A) :
  l ++ [x] = pre ++ m :: post →
  (post = [] ∧ pre = l ∧ m = x)
  ∨ (∃ post', post = post' ++ [x] ∧ l = pre ++ m :: post').
Proof.
  destruct post as [|p post' _] using rev_ind; intros Heq.
  - left. apply app_inj_tail in Heq as [-> ->]. done.
  - right. exists post'.
    change (pre ++ m :: post' ++ [p]) with (pre ++ (m :: post') ++ [p]) in Heq.
    rewrite app_assoc in Heq.
    apply app_inj_tail in Heq as [-> ->]. done.
Qed.

Lemma published_Notify_other (ch e : eref) (m : Message) (s : Store) :
  ch ≠ e → published ch [Notify e m s] = [].
Proof. intros Hne. simpl. by rewrite (proj2 (Nat.eqb_neq ch e) Hne). Qed.

Lemma heap_kept_same (w w' : World) :
  heap (store w') = heap (store w) → heap_kept w w'.
Proof. intros Heq c C Hc. exists C. by rewrite Heq. Qed.

Lemma proto_component_kept (w w' : World) (c : cref) :
  heap_kept w w' → proto_component (store w) c → proto_component (store w') c.
Proof.
  intros Hk (C & Hc & Hty). destruct (Hk c C Hc) as (C' & Hc' & Hty').
  exists C'. split; [done | congruence].
Qed.

Lemma prototypes_ok_kept (w w' : World) :
  heap_kept w w' → prototypes (store w') = prototypes (store w) →
  prototypes_ok w → prototypes_ok w'.
Proof.
  intros Hk Hp Hw e p Hin. rewrite Hp in Hin.
  eapply proto_component_kept; [exact Hk|]. by eapply Hw.
Qed.

(** No channel receives a message. *)
Lemma removals_ok_quiet (w w' : World) :
  heap_kept w w' →
  (∀ e, published e (trace w') = published e (trace w)) →
  removals_ok w → removals_ok w'.
Proof.
  intros Hk Hpub Hw e pre c e' post Heq. rewrite Hpub in Heq.
  destruct (Hw e pre c e' post Heq) as [-> [Hin|Hp]];
    (split; [done|]); [by left|].
  right. by eapply proto_component_kept.
Qed.

(** One channel receives one message. *)
Lemma removals_ok_message (w w' : World) (ch : eref) (m : Message) :
  heap_kept w w' →
  published ch (trace w') = published ch (trace w) ++ [m] →
  (∀ e, e ≠ ch → published e (trace w') = published e (trace w)) →
  (∀ c e', m = RemovedComponent c e' →
           e' = ch ∧ (AddedComponent c ch ∈ published ch (trace w)
                      ∨ proto_component (store w') c)) →
  removals_ok w → removals_ok w'.
Proof.
  intros Hk Hch Hother Hm Hw e pre c e' post Heq.
  destruct (decide (e = ch)) as [->|Hne].
  - rewrite Hch in Heq.
    apply snoc_decompose in Heq as [(_ & -> & Hlast)|(post' & _ & Heq)].
    + by apply Hm.
    + destruct (Hw ch pre c e' post' Heq) as [-> [Hin|Hp]];
        (split; [done|]); [by left|].
      right. by eapply proto_component_kept.
  - rewrite (Hother e Hne) in Heq.
    destruct (Hw e pre c e' post Heq) as [-> [Hin|Hp]];
      (split; [done|]); [by left|].
    right. by eapply proto_component_kept.
Qed.

Lemma announced_ok_add (this : eref) (c : cref) :
  preserves announced_ok (addComponent_normal this c).
Proof.
  intros w Hw.
  destruct (addComponent_normal_cases w this c)
    as [->|[(C & hooks & Hc & Hents & _ & _ & Htr & Hquiet)
           |(C & E & Hc & He & ->)]];
    [done|..].
  - intros e E k c' HE Hget. rewrite Hents in HE. rewrite Htr.
    rewrite published_app, Hquiet, app_nil_r. by eapply Hw.
  - intros e E' k c' HE' Hget. simpl in *.
    rewrite !published_app, published_OnAdd_opt, app_nil_r.
    apply elem_of_app.
    destruct (decide (e = this)) as [->|Hne].
    + rewrite published_Notify_self.
      erewrite lookup_insert_same in HE'; [|exact He]. injection HE' as <-.
      simpl in Hget.
      destruct (decide (type C = k)) as [<-|Hk].
      * rewrite cm_get_set_eq in Hget. injection Hget as <-.
        right. apply list_elem_of_here.
      * rewrite cm_get_set_ne in Hget; [|done]. left. by eapply Hw.
    + rewrite list_lookup_insert_ne in HE'; [|done]. left. by eapply Hw.
Qed.

Lemma announced_ok_delete (w : World) (this : eref) (E : Entity)
    (key : ComponentType) (h : list Component) (more : list Event) :
  entities (store w) !! this = Some E →
  announced_ok w →
  announced_ok
    {| store := with_entities
                  (<[this := with_components (cm_delete key (components E)) E]>
                     (entities (store w))) (with_heap h (store w));
       trace := trace w ++ more |}.
Proof.
  intros He Hw e E' k c' HE' Hget'. simpl in *.
  rewrite published_app. apply elem_of_app. left.
  destruct (decide (e = this)) as [->|Hne].
  - erewrite lookup_insert_same in HE'; [|exact He]. injection HE' as <-.
    simpl in Hget'.
    destruct (decide (key = k)) as [<-|Hk].
    + by rewrite cm_get_delete_eq in Hget'.
    + rewrite cm_get_delete_ne in Hget'; [|done]. by eapply Hw.
  - rewrite list_lookup_insert_ne in HE'; [|done]. by eapply Hw.
Qed.

Lemma announced_ok_remove (this : eref) (key : ComponentType) :
  preserves announced_ok (removeComponent_at this key).
Proof.
  intros w Hw.
  destruct (removeComponent_at_cases w this key)
    as [->|[(E & c & C & He & _ & Hc & ->)|(E & i & He & ->)]]; [done|..].
  - simpl. rewrite <- app_assoc.
    by apply (announced_ok_delete w this E key).
  - simpl.
    pose proof (announced_ok_delete w this E key (heap (store w))
                  [SetOwner i; Notify this (RemovedComponent_of i this) (store w)]
                  He Hw) as Hok.
    by destruct w as [[n es h ps] tr].
Qed.

Lemma announced_ok_initialize (e : eref) (engine : Engine) :
  preserves announced_ok (_initialize e engine).
Proof.
  intros w Hw.
  destruct (entities (store w) !! e) as [E|] eqn:He.
  - rewrite (initialize_run w e E engine He). simpl.
    destruct (_isInitialized E); [done|].
    intros e' E' k c' HE' Hget. simpl in *.
    rewrite !published_app. simpl. rewrite !app_nil_r.
    destruct (decide (e = e')) as [<-|Hne].
    + erewrite lookup_insert_same in HE'; [|exact He]. injection HE' as <-.
      by eapply Hw.
    + rewrite list_lookup_insert_ne in HE'; [|done]. by eapply Hw.
  - by rewrite (initialize_dangling w e engine He).
Qed.

Lemma channel_ok_add (this : eref) (c : cref) :
  preserves channel_ok (addComponent_normal this c).
Proof.
  intros w (Hann & Hproto & Hrem).
  split; [by apply announced_ok_add|].
  destruct (addComponent_normal_cases w this c)
    as [->|[(C & hooks & Hc & Hents & Hheap & Hps & Htr & Hquiet)
           |(C & E & Hc & He & ->)]];
    [done|..].
  - assert (Hk : heap_kept w (addComponent_normal this c w).2).
    { intros c0 C0 Hc0. rewrite Hheap. by apply insert_owner_keeps_types. }
    split.
    + destruct Hps as [Hps|[Hps Hty]].
      * by eapply prototypes_ok_kept.
      * intros e p Hin. rewrite Hps in Hin.
        apply elem_of_cons in Hin as [[= -> ->]|Hin].
        -- exists (with_owner (Some this) C). rewrite Hheap.
           split; [by eapply lookup_insert_same | done].
        -- eapply proto_component_kept; [exact Hk|]. by eapply Hproto.
    + eapply removals_ok_quiet; [exact Hk| |done].
      intros e. by rewrite Htr, published_app, Hquiet, app_nil_r.
  - set (w' := {| store := _; trace := _ |}).
    assert (Hk : heap_kept w w').
    { intros c0 C0 Hc0. simpl. by apply insert_owner_keeps_types. }
    split; [by eapply prototypes_ok_kept|].
    eapply (removals_ok_message w w' this (AddedComponent c this));
      [exact Hk| | |done|done].
    + simpl. rewrite !published_app, published_OnAdd_opt,
        published_Notify_self. by rewrite app_nil_r.
    + intros e Hne. simpl.
      rewrite !published_app, published_OnAdd_opt, published_Notify_other;
        [|done]. by rewrite !app_nil_r.
Qed.

Lemma channel_ok_remove (this : eref) (key : ComponentType) :
  preserves channel_ok (removeComponent_at this key).
Proof.
  intros w (Hann & Hproto & Hrem).
  split; [by apply announced_ok_remove|].
  destruct (removeComponent_at_cases w this key)
    as [->|[(E & c & C & He & Hres & Hc & ->)|(E & i & He & ->)]]; [done|..].
  - set (w' := {| store := _; trace := _ |}).
    assert (Hk : heap_kept w w').
    { intros c0 C0 Hc0. simpl. by apply insert_owner_keeps_types. }
    split; [by eapply prototypes_ok_kept|].
    eapply (removals_ok_message w w' this (RemovedComponent c this));
      [exact Hk| | | |done].
    + simpl. rewrite !published_app, published_OnRemove_opt,
        published_Notify_self. by rewrite app_nil_r.
    + intros e Hne. simpl.
      rewrite !published_app, published_OnRemove_opt, published_Notify_other;
        [|done]. by rewrite !app_nil_r.
    + intros c0 e' [= <- <-]. split; [done|].
      apply resolve_component in Hres as [Hget|[_ Hp]].
      * left. by eapply Hann.
      * right. eapply proto_component_kept; [exact Hk|].
        apply (Hproto this c). unfold map_prototype in Hp.
        clear -Hp. induction (prototypes (store w)) as [|[e0 p0] l IH];
          [done|]. simpl in Hp.
        destruct (Nat.eqb_spec this e0) as [->|Hne].
        -- injection Hp as ->. apply list_elem_of_here.
        -- apply list_elem_of_further. by apply IH.
  - set (w' := {| store := _; trace := _ |}).
    assert (Hk : heap_kept w w') by (intros c0 C0 Hc0; by exists C0).
    split; [by eapply prototypes_ok_kept|].
    eapply (removals_ok_message w w' this (RemovedComponent_of i this));
      [exact Hk| | |done|done].
    + simpl. rewrite published_app. simpl. by rewrite Nat.eqb_refl.
    + intros e Hne. simpl. rewrite published_app. simpl.
      rewrite (proj2 (Nat.eqb_neq e this) Hne). by rewrite app_nil_r.
Qed.

Lemma channel_ok_initialize (e : eref) (engine : Engine) :
  preserves channel_ok (_initialize e engine).
Proof.
  intros w (Hann & Hproto & Hrem).
  split; [by apply announced_ok_initialize|].
  destruct (entities (store w) !! e) as [E|] eqn:He.
  - rewrite (initialize_run w e E engine He). simpl.
    destruct (_isInitialized E); [done|].
    split; [by eapply (prototypes_ok_kept w); [apply heap_kept_same|..]|].
    eapply (removals_ok_quiet w); [by apply heap_kept_same| |done].
    intros e'. simpl. rewrite !published_app. simpl. by rewrite !app_nil_r.
  - by rewrite (initialize_dangling w e engine He).
Qed.

Lemma channel_ok_run (ops : list Op) : channel_ok (run ops empty_world).
Proof.
  apply kept_by_run.
  - apply channel_ok_add.
  - apply channel_ok_remove.
  - intros v w (Hann & Hproto & Hrem).
    assert (Hk : heap_kept w (allocComponent v w).2).
    { intros c C Hc. exists C. simpl. split; [by apply lookup_app_l_Some|done]. }
    split; [done|]. split; [by eapply prototypes_ok_kept|].
    by eapply removals_ok_quiet.
  - intros w (Hann & Hproto & Hrem).
    split.
    { intros e E k c HE Hget. simpl in *.
      apply lookup_app_Some in HE as [HE|[_ HE]]; [by eapply Hann|].
      destruct (e - length (entities (store w))) as [|n]; simpl in HE; [|done].
      injection HE as <-. done. }
    split; [by eapply (prototypes_ok_kept w); [apply heap_kept_same|..]|].
    by eapply (removals_ok_quiet w); [apply heap_kept_same|..].
  - apply channel_ok_initialize.
  - intros e engine delta w (Hann & Hproto & Hrem).
    split.
    { intros e' E k c HE Hget. simpl in *.
      rewrite !published_app. simpl. rewrite !app_nil_r. by eapply Hann. }
    split; [by eapply (prototypes_ok_kept w); [apply heap_kept_same|..]|].
    eapply (removals_ok_quiet w); [by apply heap_kept_same| |done].
    intros e'. simpl. rewrite !published_app. simpl. by rewrite !app_nil_r.
  - intros e engine delta w (Hann & Hproto & Hrem).
    split.
    { intros e' E k c HE Hget. simpl in *.
      rewrite !published_app. simpl. rewrite !app_nil_r. by eapply Hann. }
    split; [by eapply (prototypes_ok_kept w); [apply heap_kept_same|..]|].
    eapply (removals_ok_quiet w); [by apply heap_kept_same| |done].
    intros e'. simpl. rewrite !published_app. simpl. by rewrite !app_nil_r.
  - split; [intros e E k c HE; by destruct e|].
    split; [intros e p Hin; by apply elem_of_nil in Hin|].
    intros e pre c e' post Heq. simpl in Heq. by destruct pre.
Qed.

(** X19. The change channel reports the removal of a component only after
    it announced the component, the type ["__proto__"] apart: in every
    world built through the interface, a Removed message for a component
    names the entity of the channel it is on, and either an Added message
    for the same component comes before it on that channel, or the
    component is of type ["__proto__"]. *)
Theorem removed_was_added_before (ops : list Op) (e e' : eref) (c : cref)
    (pre post : list Message) :
  published e (trace (run ops empty_world))
  = pre ++ RemovedComponent c e' :: post →
  e' = e
  ∧ (AddedComponent c e ∈ pre
     ∨ ∃ C, heap (store (run ops empty_world)) !! c = Some C
            ∧ type C = "__proto__").
Proof.
  intros Heq. destruct (channel_ok_run ops) as (_ & _ & Hrem).
  exact (Hrem e pre c e' post Heq).
Qed.

Lemma removed_was_added_before_witness :
  0 = 0
  ∧ (AddedComponent 0 0 ∈ [AddedComponent 0 0]
     ∨ ∃ C, heap (store (run [NewEntity;
                              NewComponent (mkComponent "A" None false false);
                              AddComponent 0 (AComponent 0);
                              RemoveComponent 0 (AType "A")] empty_world)) !! 0
            = Some C
            ∧ type C = "__proto__").
Proof.
  apply (removed_was_added_before
           [NewEntity; NewComponent (mkComponent "A" None false false);
            AddComponent 0 (AComponent 0); RemoveComponent 0 (AType "A")]
           0 0 0 [AddedComponent 0 0] []).
  reflexivity.
Defined.

(** X20. Every component that an entity holds was announced: in every world
    built through the interface, what is in the map of an entity has had
    an Added message on the channel of that entity. *)
Theorem held_component_was_announced (ops : list Op) (e : eref) (E : Entity)
    (t : ComponentType) (c : cref) :
  entities (store (run ops empty_world)) !! e = Some E →
  cm_get t (components E) = Some c →
  AddedComponent c e ∈ published e (trace (run ops empty_world)).
Proof.
  intros He Hget. destruct (channel_ok_run ops) as (Hann & _).
  by eapply Hann.
Qed.

Lemma held_component_was_announced_witness :
  AddedComponent 2 0
  ∈ published 0
      (trace (run [NewEntity; NewEntity;
                   NewComponent (mkComponent "X" None false false);
                   NewComponent (mkComponent "Y" None false false);
                   AddComponent 1 (AComponent 0);
                   AddComponent 0 (AnEntity 1)] empty_world)).
Proof.
  apply (held_component_was_announced
           [NewEntity; NewEntity;
            NewComponent (mkComponent "X" None false false);
            NewComponent (mkComponent "Y" None false false);
            AddComponent 1 (AComponent 0);
            AddComponent 0 (AnEntity 1)]
           0 (mkEntity 0 [("X", 2)] false) "X" 2); reflexivity.
Defined.

(** *** Initialization, over any history *)

(** X21. However the interface is used, the [onInitialize] hook of an entity
    runs at most once and the ["initialize"] event is emitted as often as
    the hook ran; [isInitialized] is true exactly when that was once. *)
Theorem onInitialize_at_most_once (ops : list Op) (e : eref) :
  let w := run ops empty_world in
  onInitialize_calls e (trace w) ≤ 1
  ∧ emitted e "initialize" (trace w) = onInitialize_calls e (trace w)
  ∧ (isInitialized e w = (Return true, w)
     ↔ onInitialize_calls e (trace w) = 1).
Proof.
  intros w.
  assert (Hok : lifecycle_ok w) by apply lifecycle_ok_run, lifecycle_ok_empty.
  destruct (Hok e) as [Hc He]. rewrite He, Hc.
  unfold init_count, isInitialized, bind, readEntity, ret.
  destruct (entities (store w) !! e) as [E|]; [|split; [lia|]; by split].
  destruct (_isInitialized E); (split; [lia|]); split; try done;
    split; intros H; first [done | discriminate | by injection H].
Qed.

(** *** Identity, over any history *)

(** X22. In every world built from nothing through the interface, the
    entities carry the ids 0, 1, 2, ... in the order of their
    construction ([clone] included), [Entity._ID] is their number, and
    no two entities have the same id. *)
Theorem entity_ids_are_unique (ops : list Op) :
  let w := run ops empty_world in
  id <$> entities (store w) = seq 0 (length (entities (store w)))
  ∧ _ID (store w) = length (entities (store w))
  ∧ NoDup (id <$> entities (store w)).
Proof.
  intros w. destruct (ids_in_order_run ops) as [Hids Hctr].
  split; [done|]. split; [done|]. fold w in Hids. rewrite Hids.
  apply NoDup_seq.
Qed.

(** ** More on [clone] *)



(** X24. A [clone] that fails still leaves something behind.  For an entity
    that has components but none of the type ["0"], [clone] throws on the
    first turn of its loop; by then the new entity has been constructed,
    so the world has one more entity, empty, and the id counter has
    advanced.  Nothing else has changed and nothing was published. *)
Theorem clone_throws_and_leaves_an_entity (w : World) (this : eref)
    (E : Entity) :
  entities (store w) !! this = Some E →
  components E ≠ [] →
  cm_get "0" (components E) = None →
  ∃ w' : World,
    clone this w
    = (Throw (TypeError "Cannot read property 'clone' of undefined"), w')
    ∧ entities (store w')
      = entities (store w) ++ [mkEntity (_ID (store w)) [] false]
    ∧ _ID (store w') = S (_ID (store w))
    ∧ heap (store w') = heap (store w)
    ∧ trace w' = trace w.
Proof.
  intros He Hne H0. eexists.
  split; [by apply (clone_throws_without_key_0 w this E)|]. done.
Qed.

Lemma clone_throws_and_leaves_an_entity_witness :
  ∃ w' : World,
    clone 0 A_B_world
    = (Throw (TypeError "Cannot read property 'clone' of undefined"), w')
    ∧ entities (store w')
      = entities (store A_B_world) ++ [mkEntity 1 [] false]
    ∧ _ID (store w') = 2
    ∧ heap (store w') = heap (store A_B_world)
    ∧ trace w' = trace A_B_world.
Proof.
  apply (clone_throws_and_leaves_an_entity A_B_world 0
           (mkEntity 0 [("A", 0); ("B", 1)] false)).
  - reflexivity.
  - discriminate.
  - reflexivity.
Defined.







Section CloneLoop.
Context (this newEntity : eref) (T : Entity) (Hfresh : newEntity ≠ this).




End CloneLoop.






(** ** The per-frame calls *)

Lemma run_frames_run (this : eref) (frames : list (Engine * DeltaTime))
    (w : World) :
  run_frames this frames w
  = (Return tt,
     {| store := store w;
        trace := trace w
                 ++ flat_map
                      (fun f : Engine * DeltaTime =>
                         [Emit this "preupdate" (PreUpdateEvent f.1 f.2 this);
                          OnPreUpdateCall this f.1 f.2;
                          Emit this "postupdate" (PostUpdateEvent f.1 f.2 this);
                          OnPostUpdateCall this f.1 f.2])
                      frames |}).
Proof.
  revert w. induction frames as [|[engine delta] rest IH]; intros w.
  - simpl. unfold ret. rewrite app_nil_r. by destruct w.
  - cbn [run_frames].
    erewrite bind_Return; [|reflexivity].
    erewrite bind_Return; [|reflexivity].
    rewrite IH. simpl. by rewrite <- !app_assoc.
Qed.

Lemma frame_events_quiet (this e : eref) (frames : list (Engine * DeltaTime)) :
  let evs := flat_map
               (fun f : Engine * DeltaTime =>
                  [Emit this "preupdate" (PreUpdateEvent f.1 f.2 this);
                   OnPreUpdateCall this f.1 f.2;
                   Emit this "postupdate" (PostUpdateEvent f.1 f.2 this);
                   OnPostUpdateCall this f.1 f.2])
               frames in
  onInitialize_calls e evs = 0 ∧ published e evs = [].
Proof.
  induction frames as [|f rest [IHc IHp]]; simpl; [done|].
  simpl in IHc, IHp. by rewrite IHc, IHp.
Qed.

(** X27. The update calls are not tied to initialization.  For any entity,
    initialized or not, any number of frames runs through: each frame emits
    ["preupdate"], calls [onPreUpdate], emits ["postupdate"], calls
    [onPostUpdate], in this order.  Nothing in the store changes, so the
    frames never initialize the entity, and nothing is published on the
    change channel. *)
Theorem update_frames_leave_the_store (this : eref)
    (frames : list (Engine * DeltaTime)) (w : World) :
  ∃ w' : World,
    run_frames this frames w = (Return tt, w')
    ∧ store w' = store w
    ∧ trace w'
      = trace w
        ++ flat_map
             (fun f : Engine * DeltaTime =>
                [Emit this "preupdate" (PreUpdateEvent f.1 f.2 this);
                 OnPreUpdateCall this f.1 f.2;
                 Emit this "postupdate" (PostUpdateEvent f.1 f.2 this);
                 OnPostUpdateCall this f.1 f.2])
             frames
    ∧ (isInitialized this w').1 = (isInitialized this w).1
    ∧ onInitialize_calls this (trace w') = onInitialize_calls this (trace w)
    ∧ ∀ ch, published ch (trace w') = published ch (trace w).
Proof.
  eexists. split; [apply run_frames_run|]. simpl.
  split; [done|]. split; [done|].
  split.
  { unfold isInitialized, bind, readEntity, ret. simpl.
    by destruct (entities (store w) !! this). }
  split.
  - rewrite onInitialize_calls_app.
    destruct (frame_events_quiet this this frames) as [-> _]. lia.
  - intros ch. rewrite published_app.
    destruct (frame_events_quiet this ch frames) as [_ ->].
    by rewrite app_nil_r.
Qed.
